(** * ftpforcer.py: the credential search of [FTPBruteForcer]

    A shallow embedding of [src/ftpforcer.py]: the combination builder
    [generate_combinations_cpu], the single attempt [try_credentials], and
    the two searches [brute_force_cpu] and [brute_force_hybrid], which run
    their attempts on a [concurrent.futures.ThreadPoolExecutor].

    Python values are modelled as follows.
    - [str] is [string]; a wordlist is a [list string]; a credential is a
      pair of strings, as the tuple [(username, password)] of the source.
    - [int] arguments ([max_workers], [batch_size], [max_combinations]) are
      [Z], since the source accepts any integer there.
    - A call that may raise is an [outcome]: [Ret v] or [Exc e].
    - The thread pool is a transition system over a [pool] state; the
      interleaving of worker threads and of the main thread is chosen by an
      arbitrary scheduler [sched : nat -> nat], so that a statement proved
      for every [sched] holds for every interleaving.

    The last parts add the module's other functions, [load_wordlist],
    [generate_simple_wordlist] and [main], with the file system, the
    character classes and the order of a [set] taken as parameters. *)

From Stdlib Require Import String.
From Stdlib Require Import List ZArith Bool Arith Lia Permutation.
Import ListNotations.
Open Scope string_scope.
Open Scope list_scope.

(** ** Values, exceptions and outcomes *)

Abbreviation cred := (string * string)%type.

(** The exceptions the modelled code can meet: the ones [ftplib] raises
    inside an attempt, any other fault of the attempt, and the [ValueError]
    of [ThreadPoolExecutor] and [range]. *)
Inductive exn : Type :=
| error_perm                 (* ftplib.error_perm: 530 login incorrect *)
| socket_timeout             (* the connection or a reply timed out *)
| connection_error           (* refused, reset, unreachable, protocol error *)
| other_fault (name : string)(* any other exception, programming errors included *)
| ValueError (msg : string).

Inductive outcome (A : Type) : Type :=
| Ret (v : A)
| Exc (e : exn).
Arguments Ret {A} v.
Arguments Exc {A} e.

(** What the FTP exchange of one attempt does: it runs to the end
    ([connect], [login], [quit] all return) or one of the calls raises. *)
Inductive ftp_reply : Type :=
| LoginOk
| Raises (e : exn).

(** ** The object *)

Record forcer : Type := mkForcer {
  host : string;
  port : Z;
  timeout : Z;
  found : bool;
  result : option cred
}.

(** [__init__(self, host, port=21, timeout=5)] *)
Definition init (h : string) (p t : Z) : forcer :=
  mkForcer h p t false None.

(** [self.found = True; self.result = result], the two assignments taken
    as one step: this is the object as it stands once both have run.  The
    state between them is told in the last part, with [set_found] and
    [set_result]. *)
Definition record_success (self : forcer) (r : cred) : forcer :=
  mkForcer (host self) (port self) (timeout self) true (Some r).

(** ** generate_combinations_cpu *)

(** The inner [for password in passwords] loop.  The boolean tells whether
    the [return combinations] inside the loop was taken. *)
Fixpoint gen_passwords (username : string) (passwords : list string)
    (combinations : list cred) (max_combinations : Z) : list cred * bool :=
  match passwords with
  | [] => (combinations, false)
  | password :: rest =>
      let combinations := combinations ++ [(username, password)] in
      if (Z.of_nat (length combinations) >=? max_combinations)%Z
      then (combinations, true)
      else gen_passwords username rest combinations max_combinations
  end.

(** The outer [for username in usernames] loop. *)
Fixpoint gen_usernames (usernames passwords : list string)
    (combinations : list cred) (max_combinations : Z) : list cred :=
  match usernames with
  | [] => combinations
  | username :: rest =>
      let '(combinations, returned) :=
        gen_passwords username passwords combinations max_combinations in
      if returned then combinations
      else gen_usernames rest passwords combinations max_combinations
  end.

Definition default_max_combinations : Z := 1000000.

Definition generate_combinations_cpu (self : forcer)
    (usernames passwords : list string) (max_combinations : Z) : list cred :=
  gen_usernames usernames passwords [] max_combinations.

(** [itertools.product(usernames, passwords)], the first sequence varying
    slowest. *)
Definition product (usernames passwords : list string) : list cred :=
  list_prod usernames passwords.

(** The number of pairs a cap lets through: the test follows the append, so
    the first pair is always kept. *)
Definition cap_length (max_combinations : Z) : nat :=
  Z.to_nat (Z.max 1 max_combinations).

(** ** Python's [range(0, stop, step)] and [l[i:j]] *)

Definition py_range (stop step : Z) : outcome (list Z) :=
  if (step =? 0)%Z then Exc (ValueError "range() arg 3 must not be zero")
  else
    let count := if (0 <? step)%Z then ((stop + step - 1) / step)%Z
                 else ((stop + step + 1) / step)%Z in
    Ret (map (fun k => (Z.of_nat k * step)%Z) (seq 0 (Z.to_nat count))).

(** A slice bound is counted from the end when negative and clamped to the
    list. *)
Definition slice_bound (len k : Z) : Z :=
  if (k <? 0)%Z then Z.max 0 (k + len) else Z.min k len.

Definition py_slice {A : Type} (l : list A) (i j : Z) : list A :=
  let len := Z.of_nat (List.length l) in
  let lo := slice_bound len i in
  let hi := slice_bound len j in
  firstn (Z.to_nat (hi - lo)) (skipn (Z.to_nat lo) l).

(** The batches [combinations[i:i+batch_size]] taken at the given values
    of [i]. *)
Definition batches_of (combinations : list cred) (batch_size : Z)
    (indices : list Z) : list (list cred) :=
  map (fun i => py_slice combinations i (i + batch_size)%Z) indices.

(** ** The thread pool *)

(** Where the main thread stands in its [for future in as_completed(...)]
    loop: still in it, left by [return result], left by an exception of
    [future.result()], left by [break], or left because every future was
    yielded. *)
Inductive loop_status : Type :=
| Iterating
| Returned (r : cred)
| Raised (e : exn)
| Broke
| Exhausted.

(** Ghost state, for the statements only: the pairs for which an FTP
    exchange was opened, in the order they were opened; the number of
    executors constructed; the scheduler's clock. *)
Record ghost : Type := mkGhost {
  attempted : list cred;
  pools : nat;
  clock : nat
}.

Definition ghost0 : ghost := mkGhost [] 0 0.

Record pool : Type := mkPool {
  shared : forcer;                            (* the object, [self] *)
  pending : list cred;                        (* the work queue, oldest first *)
  running : list cred;                        (* tasks inside the FTP exchange *)
  completed : list (outcome (option cred));   (* done futures not yet yielded *)
  status : loop_status;
  trace : ghost
}.

Inductive event : Type :=
| Start                (* a free worker takes the head of the queue *)
| Finish (k : nat)     (* the k-th running task leaves the FTP exchange *)
| Yield (k : nat)      (* as_completed yields the k-th finished future *)
| Stop.                (* as_completed has nothing left to yield *)

Definition remove_nth {A : Type} (k : nat) (l : list A) : list A :=
  firstn k l ++ skipn (S k) l.

Definition log_attempt (g : ghost) (c : cred) : ghost :=
  mkGhost (attempted g ++ [c]) (pools g) (clock g).

Definition pool_created (g : ghost) : ghost :=
  mkGhost (attempted g) (S (pools g)) (clock g).

Definition tock (g : ghost) : ghost :=
  mkGhost (attempted g) (pools g) (S (clock g)).

Definition tick (s : pool) : pool :=
  mkPool (shared s) (pending s) (running s) (completed s) (status s)
         (tock (trace s)).

(** [ThreadPoolExecutor(max_workers=max_workers)] *)
Definition ThreadPoolExecutor (max_workers : Z) : outcome unit :=
  if (max_workers <=? 0)%Z
  then Exc (ValueError "max_workers must be greater than 0")
  else Ret tt.

(** Every pair is submitted before the main thread looks at the first
    future.  A worker that starts a task while others are still being
    submitted reads the same [found], which only the main thread writes,
    and only later; so the state after the last [submit] is taken with the
    whole batch in the queue. *)
Definition submit_all (self : forcer) (g : ghost) (batch : list cred) : pool :=
  mkPool self batch [] [] Iterating g.

Definition measure (s : pool) : nat :=
  3 * List.length (pending s) + 2 * List.length (running s)
  + List.length (completed s)
  + match status s with Iterating => 1 | _ => 0 end.

Section Search.

(** The target seen through [ftplib] with the object's host, port and
    timeout, which never change after [__init__]: what the exchange does for
    a given pair. *)
Variable ftp_login : string -> string -> ftp_reply.

(** The interleaving: at clock [t] the [sched t]-th enabled event happens
    (modulo their number). *)
Variable sched : nat -> nat.

(** The module constant set by [import cupy], and the rows the [cupy] code
    of [generate_combinations_gpu] yields (library code, not modelled). *)
Variable GPU_AVAILABLE : bool.
Variable cupy_combinations : list string -> list string -> list cred.

(** *** try_credentials *)

(** The body of the [try]: connect, login, quit, [return (username, password)]. *)
Definition ftp_exchange (username password : string) : outcome cred :=
  match ftp_login username password with
  | LoginOk => Ret (username, password)
  | Raises e => Exc e
  end.

(** [try: ... except: return None] *)
Definition try_except_none (body : outcome cred) : outcome (option cred) :=
  match body with
  | Ret c => Ret (Some c)
  | Exc _ => Ret None
  end.

Definition attempt (username password : string) : outcome (option cred) :=
  try_except_none (ftp_exchange username password).

Definition try_credentials (self : forcer) (username password : string)
    : outcome (option cred) :=
  if found self then Ret None else attempt username password.

(** *** One executor: its events *)

Definition enabled (max_workers : Z) (s : pool) : list event :=
  (match pending s with
   | [] => []
   | _ :: _ =>
       if (Z.of_nat (List.length (running s)) <? max_workers)%Z
       then [Start] else []
   end)
  ++ map Finish (seq 0 (List.length (running s)))
  ++ (match status s with
      | Iterating =>
          match completed s with
          | [] => match pending s, running s with
                  | [], [] => [Stop]
                  | _, _ => []
                  end
          | _ :: _ => map Yield (seq 0 (List.length (completed s)))
          end
      | _ => []
      end).

(** [cancel_futures] tells the two loops apart: on finding [self.found]
    set, [brute_force_cpu] calls
    [executor.shutdown(wait=False, cancel_futures=True)] before its [break],
    [brute_force_hybrid] only breaks.

    [Start] takes three steps of a worker as one: the task leaves the work
    queue, passes [if self.found:] and opens its FTP exchange; [Yield]
    takes the two assignments of the main thread as one.  The last part
    takes them apart. *)
Definition apply (cancel_futures : bool) (e : event) (s : pool) : pool :=
  match e with
  | Start =>
      match pending s with
      | [] => s
      | (username, password) :: queue =>
          if found (shared s)
          then mkPool (shared s) queue (running s)
                 (completed s ++ [try_credentials (shared s) username password])
                 (status s) (trace s)
          else mkPool (shared s) queue (running s ++ [(username, password)])
                 (completed s) (status s)
                 (log_attempt (trace s) (username, password))
      end
  | Finish k =>
      match nth_error (running s) k with
      | None => s
      | Some (username, password) =>
          mkPool (shared s) (pending s) (remove_nth k (running s))
            (completed s ++ [attempt username password])
            (status s) (trace s)
      end
  | Yield k =>
      match nth_error (completed s) k with
      | None => s
      | Some future =>
          let rest := remove_nth k (completed s) in
          if found (shared s)
          then mkPool (shared s)
                 (if cancel_futures then [] else pending s)
                 (running s) rest Broke (trace s)
          else
            match future with
            | Exc e =>
                mkPool (shared s) (pending s) (running s) rest (Raised e) (trace s)
            | Ret (Some r) =>
                mkPool (record_success (shared s) r) (pending s) (running s) rest
                  (Returned r) (trace s)
            | Ret None =>
                mkPool (shared s) (pending s) (running s) rest Iterating (trace s)
            end
      end
  | Stop =>
      mkPool (shared s) (pending s) (running s) (completed s) Exhausted (trace s)
  end.

Definition pick (max_workers : Z) (s : pool) : option event :=
  match enabled max_workers s with
  | [] => None
  | e :: es =>
      Some (nth (sched (clock (trace s)) mod List.length (e :: es)) (e :: es) e)
  end.

Fixpoint run (max_workers : Z) (cancel_futures : bool) (fuel : nat) (s : pool)
    : pool :=
  match fuel with
  | O => s
  | S fuel' =>
      match pick max_workers s with
      | None => s
      | Some e =>
          run max_workers cancel_futures fuel' (tick (apply cancel_futures e s))
      end
  end.

(** The [with] block from the last [submit] to the end of
    [executor.shutdown(wait=True)]: events happen until none is enabled. *)
Definition exec (max_workers : Z) (cancel_futures : bool) (s : pool) : pool :=
  run max_workers cancel_futures (measure s) s.

(** What the function does once the [with] block is left. *)
Definition after_loop (s : pool) : outcome (option cred) :=
  match status s with
  | Returned r => Ret (Some r)
  | Raised e => Exc e
  | _ => Ret None
  end.

(** *** brute_force_cpu *)

Definition brute_force_cpu (self : forcer) (g : ghost)
    (usernames passwords : list string) (max_workers : Z)
    : outcome (option cred) * forcer * ghost :=
  let combinations := product usernames passwords in
  match ThreadPoolExecutor max_workers with
  | Exc e => (Exc e, self, g)
  | Ret _ =>
      let s := exec max_workers true
                 (submit_all self (pool_created g) combinations) in
      (after_loop s, shared s, trace s)
  end.

(** *** brute_force_hybrid *)

Definition generate_combinations_gpu (self : forcer)
    (usernames passwords : list string) : list cred :=
  if negb GPU_AVAILABLE
  then generate_combinations_cpu self usernames passwords default_max_combinations
  else cupy_combinations usernames passwords.

(** The [for i in range(0, total, batch_size)] loop, over the values of [i]
    still to come. *)
Fixpoint hybrid_batches (indices : list Z) (combinations : list cred)
    (batch_size max_workers : Z) (self : forcer) (g : ghost)
    : outcome (option cred) * forcer * ghost :=
  match indices with
  | [] => (Ret None, self, g)
  | i :: later =>
      if found self then (Ret None, self, g)
      else
        let batch := py_slice combinations i (i + batch_size) in
        match ThreadPoolExecutor max_workers with
        | Exc e => (Exc e, self, g)
        | Ret _ =>
            let s := exec max_workers false
                       (submit_all self (pool_created g) batch) in
            match status s with
            | Returned r => (Ret (Some r), shared s, trace s)
            | Raised e => (Exc e, shared s, trace s)
            | _ => hybrid_batches later combinations batch_size max_workers
                     (shared s) (trace s)
            end
        end
  end.

(** The list bound to [combinations] by the [if GPU_AVAILABLE: ... else:]
    at the head of [brute_force_hybrid]; the call in the [else] branch
    leaves [max_combinations] to its default. *)
Definition hybrid_combinations (self : forcer)
    (usernames passwords : list string) : list cred :=
  if GPU_AVAILABLE
  then generate_combinations_gpu self usernames passwords
  else generate_combinations_cpu self usernames passwords
         default_max_combinations.

Definition brute_force_hybrid (self : forcer) (g : ghost)
    (usernames passwords : list string) (batch_size max_workers : Z)
    : outcome (option cred) * forcer * ghost :=
  let combinations := hybrid_combinations self usernames passwords in
  let total := Z.of_nat (List.length combinations) in
  match py_range total batch_size with
  | Exc e => (Exc e, self, g)
  | Ret indices =>
      hybrid_batches indices combinations batch_size max_workers self g
  end.

End Search.

(** What a search leaves in the object it was called on: a set flag comes
    with a result; an object whose flag was set is left as it was; a pair
    that is returned is the pair recorded. *)
Definition keeps_first_result (self : forcer)
    (R : outcome (option cred) * forcer * ghost) : Prop :=
  let self' := snd (fst R) in
  (found self' = true -> result self' <> None) /\
  (found self = true -> self' = self) /\
  (forall r, fst (fst R) = Ret (Some r) -> result self' = Some r).

(** ** Test doubles for the target *)

(** Every login is refused. *)
Definition always_fails (u p : string) : ftp_reply := Raises error_perm.

(** One account only; every other pair is refused. *)
Definition only_root_admin (u p : string) : ftp_reply :=
  if (String.eqb u "root" && String.eqb p "admin")%bool
  then LoginOk else Raises error_perm.

(** A target on which every login succeeds: any two finished attempts are
    two successes racing for the result. *)
Definition always_accepts (u p : string) : ftp_reply := LoginOk.

(** A target that never answers. *)
Definition stalled (u p : string) : ftp_reply := Raises socket_timeout.

(** Wordlists spanning 1001 x 1000 pairs, the account of [only_root_admin]
    being the last pair of the enumeration. *)
Definition many_usernames : list string := repeat "guest" 1000 ++ ["root"].
Definition many_passwords : list string := repeat "x" 999 ++ ["admin"].

(** Two schedules: one that rotates through the enabled events, one that
    always takes the first, so that a worker never waits for the loop. *)
Definition round_robin (t : nat) : nat := t.
Definition first_enabled (t : nat) : nat := 0.

(** Stands for the [cupy] rows where the GPU path is not taken. *)
Definition no_cupy (us ps : list string) : list cred := [].

(** * Properties *)

(** ** The combination builder *)

Lemma cap_length_pos : forall cap, (1 <= cap_length cap)%nat.
Proof. intros cap. unfold cap_length. lia. Qed.

Lemma cap_test : forall cap m, (1 <= m)%nat ->
  (Z.of_nat m >=? cap)%Z = (cap_length cap <=? m)%nat.
Proof.
  intros cap m Hm. unfold cap_length.
  destruct (Z.geb_spec (Z.of_nat m) cap); destruct (Nat.leb_spec (Z.to_nat (Z.max 1 cap)) m); lia.
Qed.

Lemma firstn_short : forall (A : Type) (n : nat) (l1 l2 : list A),
  (n <= List.length l1)%nat -> firstn n (l1 ++ l2) = firstn n l1.
Proof.
  intros A n l1 l2 H. rewrite firstn_app.
  replace (n - List.length l1)%nat with 0%nat by lia.
  simpl. apply app_nil_r.
Qed.

Lemma gen_passwords_spec : forall u cap ps acc,
  (List.length acc < cap_length cap)%nat ->
  gen_passwords u ps acc cap =
  if (List.length acc + List.length ps <? cap_length cap)%nat
  then (acc ++ map (fun p => (u, p)) ps, false)
  else (firstn (cap_length cap) (acc ++ map (fun p => (u, p)) ps), true).
Proof.
  intros u cap ps. induction ps as [|p ps IH]; intros acc Hacc.
  - simpl. rewrite Nat.add_0_r.
    destruct (Nat.ltb_spec (List.length acc) (cap_length cap)); [|lia].
    now rewrite app_nil_r.
  - cbn [gen_passwords map List.length].
    assert (Hlen : List.length (acc ++ [(u, p)]) = S (List.length acc))
      by (rewrite length_app; simpl; lia).
    rewrite cap_test by lia. rewrite Hlen.
    replace (acc ++ (u, p) :: map (fun p0 => (u, p0)) ps)
      with ((acc ++ [(u, p)]) ++ map (fun p0 => (u, p0)) ps)
      by (rewrite <- app_assoc; reflexivity).
    destruct (Nat.leb_spec (cap_length cap) (S (List.length acc))) as [Hfull|Hroom].
    + destruct (Nat.ltb_spec (List.length acc + S (List.length ps)) (cap_length cap)); [lia|].
      rewrite firstn_short by (rewrite Hlen; lia).
      rewrite firstn_all2 by (rewrite Hlen; lia). reflexivity.
    + rewrite IH by lia. rewrite Hlen.
      replace (S (List.length acc) + List.length ps)%nat
        with (List.length acc + S (List.length ps))%nat by lia.
      reflexivity.
Qed.

Lemma gen_usernames_spec : forall cap ps us acc,
  (List.length acc < cap_length cap)%nat ->
  gen_usernames us ps acc cap = firstn (cap_length cap) (acc ++ list_prod us ps).
Proof.
  intros cap ps us. induction us as [|u us IH]; intros acc Hacc.
  - simpl. rewrite app_nil_r. now rewrite firstn_all2 by lia.
  - cbn [gen_usernames list_prod]. rewrite gen_passwords_spec by assumption.
    rewrite app_assoc.
    destruct (Nat.ltb_spec (List.length acc + List.length ps) (cap_length cap)) as [Hroom|Hfull].
    + apply IH. rewrite length_app, length_map. lia.
    + symmetry. apply firstn_short.
      rewrite length_app, length_map. lia.
Qed.

(** The builder returns the cross product cut after [cap_length] pairs. *)
Lemma generate_combinations_cpu_firstn : forall self us ps cap,
  generate_combinations_cpu self us ps cap
  = firstn (cap_length cap) (product us ps).
Proof.
  intros self us ps cap. unfold generate_combinations_cpu, product.
  rewrite gen_usernames_spec by (simpl; pose proof (cap_length_pos cap); lia).
  reflexivity.
Qed.

Lemma product_length : forall us ps,
  List.length (product us ps) = (List.length us * List.length ps)%nat.
Proof. intros. unfold product. apply length_prod. Qed.

Lemma generate_combinations_cpu_length : forall self us ps cap,
  (1 <= cap)%Z ->
  Z.of_nat (List.length (generate_combinations_cpu self us ps cap))
  = Z.min (Z.of_nat (List.length us) * Z.of_nat (List.length ps)) cap.
Proof.
  intros self us ps cap Hcap.
  rewrite generate_combinations_cpu_firstn, length_firstn, product_length.
  unfold cap_length. lia.
Qed.

Lemma product_nth_error : forall us ps k,
  (k < List.length us * List.length ps)%nat ->
  exists u p,
    nth_error us (k / List.length ps) = Some u /\
    nth_error ps (k mod List.length ps) = Some p /\
    nth_error (product us ps) k = Some (u, p).
Proof.
  unfold product. intros us ps. induction us as [|u us IH]; intros k Hk.
  - simpl in Hk. lia.
  - cbn [list_prod]. set (m := List.length ps) in *.
    assert (Hm : m <> 0%nat) by (intros E; rewrite E in Hk; simpl in Hk; lia).
    destruct (Nat.lt_ge_cases k m) as [Hlt|Hge].
    + destruct (nth_error ps k) as [p|] eqn:Hp.
      2: { apply nth_error_Some in Hlt. contradiction. }
      exists u, p. rewrite Nat.div_small, Nat.mod_small by assumption.
      repeat split; [assumption|].
      rewrite nth_error_app1 by (rewrite length_map; assumption).
      rewrite nth_error_map, Hp. reflexivity.
    + destruct (IH (k - m)%nat) as (u' & p' & Hu & Hp & Hup).
      { cbn [List.length] in Hk. fold m in Hk. lia. }
      exists u', p'.
      replace k with ((k - m) + 1 * m)%nat at 1 2 by lia.
      rewrite Nat.div_add by assumption. rewrite Nat.Div0.mod_add.
      rewrite Nat.add_1_r. cbn [nth_error].
      repeat split; try assumption.
      rewrite nth_error_app2 by (rewrite length_map; assumption).
      rewrite length_map. exact Hup.
Qed.

Lemma In_firstn : forall (A : Type) (n : nat) (l : list A) (x : A),
  In x (firstn n l) -> In x l.
Proof.
  intros A n l x H. rewrite <- (firstn_skipn n l). apply in_or_app. now left.
Qed.

(** ** Batches *)

Lemma firstn_plus : forall (A : Type) (a b : nat) (l : list A),
  firstn (a + b) l = firstn a l ++ firstn b (skipn a l).
Proof.
  intros A a. induction a as [|a IH]; intros b l.
  - reflexivity.
  - destruct l as [|x l].
    + simpl. now rewrite firstn_nil.
    + simpl. now rewrite IH.
Qed.

Lemma py_slice_chunk : forall (A : Type) (l : list A) (k b : nat),
  (1 <= b)%nat ->
  py_slice l (Z.of_nat k * Z.of_nat b) (Z.of_nat k * Z.of_nat b + Z.of_nat b)
  = firstn b (skipn (k * b) l).
Proof.
  intros A l k b Hb. unfold py_slice, slice_bound.
  set (len := List.length l).
  destruct (Z.ltb_spec (Z.of_nat k * Z.of_nat b) 0) as [Hneg|_]; [lia|].
  destruct (Z.ltb_spec (Z.of_nat k * Z.of_nat b + Z.of_nat b) 0) as [Hneg|_]; [lia|].
  destruct (Nat.le_gt_cases (k * b) len) as [Hin|Hout].
  - replace (Z.to_nat (Z.min (Z.of_nat k * Z.of_nat b) (Z.of_nat len)))
      with (k * b)%nat by lia.
    destruct (Nat.le_gt_cases (k * b + b) len) as [Hfull|Hpart].
    + f_equal. lia.
    + rewrite (firstn_all2 (n := b)) by (rewrite length_skipn; fold len; lia).
      apply firstn_all2. rewrite length_skipn. fold len. lia.
  - rewrite (skipn_all2 (n := (k * b)%nat)) by (fold len; lia).
    rewrite skipn_all2 by (fold len; lia).
    now rewrite !firstn_nil.
Qed.

Lemma concat_chunks : forall (A : Type) (l : list A) (b n : nat),
  concat (map (fun k => firstn b (skipn (k * b) l)) (seq 0 n))
  = firstn (n * b) l.
Proof.
  intros A l b n. induction n as [|n IH].
  - reflexivity.
  - rewrite seq_S, map_app, concat_app, IH. simpl.
    rewrite app_nil_r. rewrite (Nat.add_comm b). symmetry. apply firstn_plus.
Qed.

(** For a positive step the slices taken at the values of [range] are,
    put end to end, the list itself. *)
Lemma batches_cover : forall combinations batch_size,
  (1 <= batch_size)%Z ->
  exists indices,
    py_range (Z.of_nat (List.length combinations)) batch_size = Ret indices /\
    concat (batches_of combinations batch_size indices) = combinations.
Proof.
  intros l bs Hbs. unfold py_range.
  destruct (Z.eqb_spec bs 0) as [E|_]; [lia|].
  destruct (Z.ltb_spec 0 bs) as [_|E]; [|lia].
  eexists. split; [reflexivity|].
  unfold batches_of. rewrite map_map.
  set (n := Z.to_nat ((Z.of_nat (List.length l) + bs - 1) / bs)).
  rewrite (map_ext _ (fun k => firstn (Z.to_nat bs) (skipn (k * Z.to_nat bs) l))).
  2: { intros k. rewrite <- (py_slice_chunk _ l k (Z.to_nat bs)) by lia.
       now rewrite Z2Nat.id by lia. }
  rewrite concat_chunks. apply firstn_all2.
  pose proof (Z.mul_succ_div_gt (Z.of_nat (List.length l) + bs - 1) bs ltac:(lia)) as Hq.
  assert (0 <= (Z.of_nat (List.length l) + bs - 1) / bs)%Z
    by (apply Z.div_pos; lia).
  unfold n. nia.
Qed.

(** ** The executor as a step relation *)

Lemma remove_nth_split : forall (A : Type) (l1 l2 : list A) (x : A),
  remove_nth (List.length l1) (l1 ++ x :: l2) = l1 ++ l2.
Proof.
  intros A l1 l2 x. unfold remove_nth. induction l1 as [|a l1 IH].
  - reflexivity.
  - cbn [List.length app firstn].
    change (skipn (S (S (List.length l1))) (a :: l1 ++ x :: l2))
      with (skipn (S (List.length l1)) (l1 ++ x :: l2)).
    now rewrite IH.
Qed.

Lemma remove_nth_length : forall (A : Type) (k : nat) (l : list A) (x : A),
  nth_error l k = Some x -> S (List.length (remove_nth k l)) = List.length l.
Proof.
  intros A k l x H. apply nth_error_split in H as (l1 & l2 & -> & <-).
  rewrite remove_nth_split, !length_app. simpl. lia.
Qed.

Lemma remove_nth_In : forall (A : Type) (k : nat) (l : list A) (x : A),
  In x (remove_nth k l) -> In x l.
Proof.
  intros A k l x H. unfold remove_nth in H.
  apply in_app_or in H as [H|H].
  - eapply In_firstn; eassumption.
  - rewrite <- (firstn_skipn (S k) l). apply in_or_app. now right.
Qed.

Lemma remove_nth_keeps : forall (A : Type) (k : nat) (l : list A) (x y : A),
  nth_error l k = Some y -> In x l -> x <> y -> In x (remove_nth k l).
Proof.
  intros A k l x y H Hin Hne.
  apply nth_error_split in H as (l1 & l2 & -> & <-).
  rewrite remove_nth_split.
  apply in_app_or in Hin as [Hin|[Hin|Hin]].
  - apply in_or_app. now left.
  - congruence.
  - apply in_or_app. now right.
Qed.

Section Executor.

Variable ftp_login : string -> string -> ftp_reply.
Variable sched : nat -> nat.
Variable cancel_futures : bool.
Variable max_workers : Z.

(** One event of the executor, case by case. *)
Inductive step : pool -> pool -> Prop :=
| step_skip : forall self u p q r d st g,
    found self = true ->
    step (mkPool self ((u, p) :: q) r d st g)
         (mkPool self q r (d ++ [Ret None]) st (tock g))
| step_open : forall self u p q r d st g,
    found self = false ->
    step (mkPool self ((u, p) :: q) r d st g)
         (mkPool self q (r ++ [(u, p)]) d st (tock (log_attempt g (u, p))))
| step_finish : forall self q r d st g k u p,
    nth_error r k = Some (u, p) ->
    step (mkPool self q r d st g)
         (mkPool self q (remove_nth k r) (d ++ [attempt ftp_login u p]) st
                 (tock g))
| step_break : forall self q r d g k f,
    nth_error d k = Some f ->
    found self = true ->
    step (mkPool self q r d Iterating g)
         (mkPool self (if cancel_futures then [] else q) r (remove_nth k d)
                 Broke (tock g))
| step_raise : forall self q r d g k e,
    nth_error d k = Some (Exc e) ->
    found self = false ->
    step (mkPool self q r d Iterating g)
         (mkPool self q r (remove_nth k d) (Raised e) (tock g))
| step_success : forall self q r d g k x,
    nth_error d k = Some (Ret (Some x)) ->
    found self = false ->
    step (mkPool self q r d Iterating g)
         (mkPool (record_success self x) q r (remove_nth k d) (Returned x)
                 (tock g))
| step_none : forall self q r d g k,
    nth_error d k = Some (Ret None) ->
    found self = false ->
    step (mkPool self q r d Iterating g)
         (mkPool self q r (remove_nth k d) Iterating (tock g))
| step_stop : forall self g,
    step (mkPool self [] [] [] Iterating g)
         (mkPool self [] [] [] Exhausted (tock g)).

Lemma enabled_step : forall s e,
  In e (enabled max_workers s) ->
  step s (tick (apply ftp_login cancel_futures e s)).
Proof.
  intros [self q r d st g] e H. unfold enabled in H. cbn [pending running completed status] in H.
  apply in_app_or in H as [H|H]; [|apply in_app_or in H as [H|H]].
  - destruct q as [|[u p] q]; [contradiction|].
    destruct (Z.of_nat (List.length r) <? max_workers)%Z; [|contradiction].
    destruct H as [<-|[]]. unfold tick, apply, try_credentials. cbn.
    destruct (found self) eqn:F; cbn; now constructor.
  - apply in_map_iff in H as (k & <- & Hk). apply in_seq in Hk.
    destruct (nth_error r k) as [[u p]|] eqn:Hr.
    2: { apply nth_error_None in Hr. lia. }
    unfold tick, apply. cbn. rewrite Hr. cbn. now constructor.
  - destruct st; try contradiction.
    destruct d as [|f d].
    + destruct q; [|contradiction]. destruct r; [|contradiction].
      destruct H as [<-|[]]. cbn. constructor.
    + apply in_map_iff in H as (k & <- & Hk). apply in_seq in Hk.
      destruct (nth_error (f :: d) k) as [f'|] eqn:Hd.
      2: { apply nth_error_None in Hd. lia. }
      unfold tick, apply. cbn [completed shared pending running trace status].
      rewrite Hd. destruct (found self) eqn:F.
      * cbn. econstructor; eassumption.
      * destruct f' as [[x|]|e]; cbn; now constructor.
Qed.

Lemma pick_enabled : forall s e,
  pick sched max_workers s = Some e -> In e (enabled max_workers s).
Proof.
  intros s e H. unfold pick in H.
  destruct (enabled max_workers s) as [|e0 es] eqn:E; [discriminate|].
  assert (Hlt : (sched (clock (trace s)) mod List.length (e0 :: es)
                 < List.length (e0 :: es))%nat)
    by (apply Nat.mod_upper_bound; discriminate).
  injection H as <-. exact (nth_In _ _ Hlt).
Qed.

Lemma step_measure : forall s s', step s s' -> (measure s' < measure s)%nat.
Proof.
  intros s s' H. destruct H; unfold measure; cbn [pending running completed status];
    rewrite ?length_app; cbn [List.length];
    try match goal with
        | Hn : nth_error _ _ = Some _ |- _ => apply remove_nth_length in Hn
        end;
    try destruct cancel_futures; cbn [List.length];
    try match goal with st : loop_status |- _ => destruct st end; lia.
Qed.

(** An invariant of the steps holds after any number of events. *)
Lemma run_invariant : forall (P : pool -> Prop),
  (forall s s', P s -> step s s' -> P s') ->
  forall fuel s, P s -> P (run ftp_login sched max_workers cancel_futures fuel s).
Proof.
  intros P HP fuel. induction fuel as [|fuel IH]; intros s Hs; cbn [run].
  - assumption.
  - destruct (pick sched max_workers s) as [e|] eqn:E; [|assumption].
    apply IH. eapply HP; [eassumption|].
    apply enabled_step. now apply pick_enabled.
Qed.

(** The fuel [exec] gives is enough: it stops where no event is enabled. *)
Lemma run_quiescent : forall fuel s,
  (measure s <= fuel)%nat ->
  enabled max_workers (run ftp_login sched max_workers cancel_futures fuel s) = [].
Proof.
  intros fuel. induction fuel as [|fuel IH]; intros s Hm; cbn [run].
  - destruct s as [self q r d st g]. unfold measure in Hm. cbn in Hm.
    destruct q; [|cbn in Hm; lia]. destruct r; [|cbn in Hm; lia].
    destruct d; [|cbn in Hm; lia]. destruct st; cbn in Hm; try lia; reflexivity.
  - destruct (pick sched max_workers s) as [e|] eqn:E.
    + apply IH. apply pick_enabled in E.
      apply enabled_step, step_measure in E. lia.
    + unfold pick in E. destruct (enabled max_workers s); [reflexivity|discriminate].
Qed.

Lemma exec_quiescent : forall s,
  enabled max_workers (exec ftp_login sched max_workers cancel_futures s) = [].
Proof. intros s. apply run_quiescent. lia. Qed.

(** With at least one worker nothing is left undone where no event is
    enabled, and the main thread has left its loop. *)
Lemma quiescent_done : forall s,
  (1 <= max_workers)%Z ->
  enabled max_workers s = [] ->
  pending s = [] /\ running s = [] /\ status s <> Iterating.
Proof.
  intros [self q r d st g] Hw H. unfold enabled in H.
  cbn [pending running completed status] in *.
  apply app_eq_nil in H as [H1 H2]. apply app_eq_nil in H2 as [H2 H3].
  destruct r as [|c r]; [|discriminate].
  cbn [List.length] in H1.
  destruct q as [|c q].
  - repeat split; try reflexivity. destruct st; try discriminate.
    destruct d; discriminate.
  - destruct (Z.ltb_spec (Z.of_nat 0) max_workers); [discriminate|lia].
Qed.

End Executor.

(** ** Invariants of one executor *)

Section Invariants.

Variable ftp_login : string -> string -> ftp_reply.
Variable sched : nat -> nat.
Variable cancel_futures : bool.
Variable max_workers : Z.

Local Abbreviation stepR := (step ftp_login cancel_futures).
Local Abbreviation execR :=
  (exec ftp_login sched max_workers cancel_futures).

Lemma attempt_accepted : forall u p,
  ftp_login u p = LoginOk -> attempt ftp_login u p = Ret (Some (u, p)).
Proof. intros u p H. unfold attempt, ftp_exchange. now rewrite H. Qed.

Lemma attempt_fault : forall u p e,
  ftp_login u p = Raises e -> attempt ftp_login u p = Ret None.
Proof. intros u p e H. unfold attempt, ftp_exchange. now rewrite H. Qed.

(** *** Exactly one pair is accepted *)

Definition one_valid (x : string * string) (s : pool) : Prop :=
  (forall c, In c (pending s) \/ In c (running s) ->
             ftp_login (fst c) (snd c) = LoginOk -> c = x) /\
  (forall f, In f (completed s) -> f = Ret None \/ f = Ret (Some x)) /\
  ((status s = Iterating /\ found (shared s) = false /\
    (In x (pending s) \/ In x (running s) \/ In (Ret (Some x)) (completed s)))
   \/
   (status s = Returned x /\ found (shared s) = true /\
    result (shared s) = Some x)).

Lemma one_valid_step : forall x s s',
  ftp_login (fst x) (snd x) = LoginOk ->
  one_valid x s -> stepR s s' -> one_valid x s'.
Proof.
  intros x s s' Hx (Hq & Hd & Hst) Hstep.
  destruct Hstep; unfold one_valid;
    cbn [pending running completed status shared] in *.
  - (* a task finds the flag set *)
    split; [|split].
    + intros c [Hc|Hc]; apply Hq; [left; now right|now right].
    + intros f Hf. apply in_app_or in Hf as [Hf|[<-|[]]]; [now apply Hd|now left].
    + destruct Hst as [(_ & F & _)|Hst]; [congruence|now right].
  - (* a task enters the exchange *)
    split; [|split].
    + intros c [Hc|Hc]; apply Hq; [left; now right|].
      apply in_app_or in Hc as [Hc|[<-|[]]]; [now right|left; now left].
    + assumption.
    + destruct Hst as [(S1 & F & [[<-|Hin]|[Hin|Hin]])|(_ & F & _)];
        try congruence; left; repeat split; trivial.
      * right; left. apply in_or_app. right. now left.
      * now left.
      * right; left. apply in_or_app. now left.
      * now (right; right).
  - (* a task leaves the exchange *)
    pose proof (nth_error_In _ _ H) as Hin.
    split; [|split].
    + intros c [Hc|Hc]; apply Hq; [now left|right].
      eapply remove_nth_In; eassumption.
    + intros f Hf. apply in_app_or in Hf as [Hf|[<-|[]]]; [now apply Hd|].
      destruct (ftp_login u p) as [|e] eqn:E.
      * right. rewrite (attempt_accepted _ _ E). do 2 f_equal.
        apply Hq; [now right|exact E].
      * left. eapply attempt_fault; eassumption.
    + destruct Hst as [(S1 & F & [Hp|[Hr|Hc]])|Hst]; [| | |now right];
        left; repeat split; trivial.
      * now left.
      * destruct (ftp_login u p) as [|e] eqn:E.
        -- right; right. apply in_or_app. right. left.
           rewrite (attempt_accepted _ _ E). do 2 f_equal.
           apply Hq; [now right|exact E].
        -- right; left. eapply remove_nth_keeps; [eassumption|assumption|].
           intros ->. cbn in Hx. congruence.
      * right; right. apply in_or_app. now left.
  - (* the loop finds the flag set *)
    destruct Hst as [(_ & F & _)|(S1 & _)]; congruence.
  - (* a future holds an exception *)
    apply nth_error_In, Hd in H. destruct H; discriminate.
  - (* a future holds a pair *)
    pose proof (nth_error_In _ _ H) as Hin. apply Hd in Hin.
    destruct Hin as [Hin|Hin]; [discriminate|]. injection Hin as ->.
    split; [assumption|split].
    + intros f Hf. apply Hd. eapply remove_nth_In; eassumption.
    + right. repeat split.
  - (* a future holds None *)
    split; [assumption|split].
    + intros f Hf. apply Hd. eapply remove_nth_In; eassumption.
    + destruct Hst as [(S1 & F & [Hp|[Hr|Hc]])|(S1 & _)]; [| | |discriminate];
        left; repeat split; trivial.
      * now left.
      * right; now left.
      * right; right. eapply remove_nth_keeps; [eassumption|assumption|discriminate].
  - (* nothing left to yield *)
    destruct Hst as [(_ & _ & [[]|[[]|[]]])|(S1 & _)]. discriminate.
Qed.

(** A batch that holds the one accepted pair: the loop is left by
    [return result] with that pair, under every schedule. *)
Lemma exec_one_valid : forall x self g batch,
  (1 <= max_workers)%Z ->
  ftp_login (fst x) (snd x) = LoginOk ->
  (forall c, In c batch -> ftp_login (fst c) (snd c) = LoginOk -> c = x) ->
  In x batch ->
  found self = false ->
  let s := execR (submit_all self g batch) in
  status s = Returned x /\ found (shared s) = true /\ result (shared s) = Some x.
Proof.
  intros x self g batch Hw Hx Huniq Hin F s.
  assert (Hinv : one_valid x s).
  { apply (run_invariant ftp_login sched cancel_futures max_workers (one_valid x)).
    - intros s1 s2 H1 H2. eapply one_valid_step; eassumption.
    - split; [|split]; cbn.
      + intros c [Hc|[]]. now apply Huniq.
      + intros f [].
      + left. repeat split; trivial. now left. }
  destruct (quiescent_done max_workers s Hw (exec_quiescent _ _ _ _ _))
    as (_ & _ & Hs).
  destruct Hinv as (_ & _ & [(S1 & _)|Hdone]); [contradiction|assumption].
Qed.

(** *** No pair is accepted *)

Definition none_valid (self0 : forcer) (log : list (string * string))
    (s : pool) : Prop :=
  (forall c, In c (pending s) \/ In c (running s) ->
             ftp_login (fst c) (snd c) <> LoginOk) /\
  (forall f, In f (completed s) -> f = Ret None) /\
  shared s = self0 /\
  (status s = Iterating \/ status s = Exhausted) /\
  attempted (trace s) ++ pending s = log /\
  found self0 = false.

Lemma none_valid_step : forall self0 log s s',
  none_valid self0 log s -> stepR s s' -> none_valid self0 log s'.
Proof.
  intros self0 log s s' (Hq & Hd & Hself & Hst & Hlog & F) Hstep.
  destruct Hstep; unfold none_valid;
    cbn [pending running completed status shared trace attempted log_attempt tock] in *;
    subst self0; try congruence.
  - (* a task enters the exchange *)
    repeat split; trivial.
    + intros c [Hc|Hc]; apply Hq; [left; now right|].
      apply in_app_or in Hc as [Hc|[<-|[]]]; [now right|left; now left].
    + rewrite <- Hlog, <- app_assoc. reflexivity.
  - (* a task leaves the exchange *)
    pose proof (nth_error_In _ _ H) as Hin.
    repeat split; trivial.
    + intros c [Hc|Hc]; apply Hq; [now left|right].
      eapply remove_nth_In; eassumption.
    + intros f Hf. apply in_app_or in Hf as [Hf|[<-|[]]]; [now apply Hd|].
      destruct (ftp_login u p) as [|e] eqn:E.
      * exfalso. apply (Hq (u, p)); [now right|exact E].
      * eapply attempt_fault; eassumption.
  - (* a future holds an exception *)
    apply nth_error_In, Hd in H. discriminate.
  - (* a future holds a pair *)
    apply nth_error_In, Hd in H. discriminate.
  - (* a future holds None *)
    repeat split; trivial.
    intros f Hf. apply Hd. eapply remove_nth_In; eassumption.
  - (* nothing left to yield *)
    repeat split; trivial. now right.
Qed.

(** A batch without an accepted pair: every pair is tried, in the order of
    the batch, the loop runs to its end and the object is untouched. *)
Lemma exec_none_valid : forall self g batch,
  (1 <= max_workers)%Z ->
  (forall c, In c batch -> ftp_login (fst c) (snd c) <> LoginOk) ->
  found self = false ->
  let s := execR (submit_all self g batch) in
  status s = Exhausted /\ shared s = self /\
  attempted (trace s) = attempted g ++ batch.
Proof.
  intros self g batch Hw Hnone F s.
  assert (Hinv : none_valid self (attempted g ++ batch) s).
  { apply (run_invariant ftp_login sched cancel_futures max_workers
             (none_valid self (attempted g ++ batch))).
    - intros s1 s2 H1 H2. eapply none_valid_step; eassumption.
    - repeat split; cbn; trivial.
      + intros c [Hc|[]]. now apply Hnone.
      + intros f [].
      + now left. }
  destruct (quiescent_done max_workers s Hw (exec_quiescent _ _ _ _ _))
    as (Hp & _ & Hs).
  destruct Hinv as (_ & _ & Hself & Hst & Hlog & _).
  rewrite Hp, app_nil_r in Hlog.
  repeat split; trivial. destruct Hst; [contradiction|assumption].
Qed.

(** *** What is tried comes from the batch *)

Definition log_within (log : list (string * string)) (n : nat)
    (batch : list (string * string)) (s : pool) : Prop :=
  pools (trace s) = n /\
  exists new rest,
    attempted (trace s) = log ++ new /\
    Permutation batch (new ++ pending s ++ rest).

Lemma log_within_step : forall log n batch s s',
  log_within log n batch s -> stepR s s' -> log_within log n batch s'.
Proof.
  intros log n batch s s' (Hn & new & rest & Hlog & Hperm) Hstep.
  destruct Hstep; unfold log_within;
    cbn [pending trace attempted pools log_attempt tock] in *;
    (split; [assumption|]);
    try (exists new, rest; split; assumption).
  - exists new, ((u, p) :: rest). split; [assumption|].
    etransitivity; [exact Hperm|].
    apply Permutation_app_head. cbn. apply Permutation_middle.
  - exists (new ++ [(u, p)]), rest. split.
    + rewrite Hlog. now rewrite app_assoc.
    + rewrite <- app_assoc. exact Hperm.
  - destruct cancel_futures.
    + exists new, (q ++ rest). split; assumption.
    + exists new, rest. split; assumption.
Qed.

Lemma exec_log_within : forall self g batch,
  let s := execR (submit_all self (pool_created g) batch) in
  pools (trace s) = S (pools g) /\
  exists new rest,
    attempted (trace s) = attempted g ++ new /\
    Permutation batch (new ++ rest).
Proof.
  intros self g batch s.
  assert (Hinv : log_within (attempted g) (S (pools g)) batch s).
  { apply (run_invariant ftp_login sched cancel_futures max_workers
             (log_within (attempted g) (S (pools g)) batch)).
    - intros s1 s2 H1 H2. eapply log_within_step; eassumption.
    - split; [reflexivity|]. exists [], []. cbn. split.
      + now rewrite app_nil_r.
      + now rewrite app_nil_r. }
  destruct Hinv as (Hn & new & rest & Hlog & Hperm).
  split; [assumption|]. exists new, (pending s ++ rest). now split.
Qed.

(** *** The flag and the result are written once *)

Definition write_once (s0 s : pool) : Prop :=
  (found (shared s0) = true -> shared s = shared s0) /\
  (found (shared s) = true -> result (shared s) <> None) /\
  (found (shared s) = found (shared s0) \/
   exists r, found (shared s) = true /\ status s = Returned r /\
             result (shared s) = Some r).

Lemma write_once_step : forall s0 s s',
  write_once s0 s -> stepR s s' -> write_once s0 s'.
Proof.
  intros s0 s s' (Hkeep & Hres & Hflip) Hstep.
  destruct Hstep; unfold write_once; cbn [shared status] in *;
    try (split; [assumption|split; [assumption|]];
         destruct Hflip as [Hflip|(r0 & F & S1 & R)];
         [now left|try congruence; try discriminate;
                   right; exists r0; now repeat split]).
  (* a future holds a pair: the one write *)
  split; [|split].
  - intros F0. pose proof (Hkeep F0) as E. rewrite E in *. congruence.
  - cbn. discriminate.
  - right. exists x. now repeat split.
Qed.

Definition returned_recorded (s : pool) : Prop :=
  forall r, status s = Returned r ->
            found (shared s) = true /\ result (shared s) = Some r.

Lemma returned_recorded_step : forall s s',
  returned_recorded s -> stepR s s' -> returned_recorded s'.
Proof.
  intros s s' Hs Hstep.
  destruct Hstep; unfold returned_recorded in *; cbn [status shared] in *;
    try assumption; try discriminate.
  intros r0 E. injection E as <-. now split.
Qed.

Lemma exec_write_once : forall self g batch,
  (found self = true -> result self <> None) ->
  let s := execR (submit_all self g batch) in
  (found (shared s) = true -> result (shared s) <> None) /\
  (found self = true -> shared s = self) /\
  (forall r, status s = Returned r -> result (shared s) = Some r).
Proof.
  intros self g batch Hself s.
  assert (H1 : write_once (submit_all self g batch) s).
  { apply (run_invariant ftp_login sched cancel_futures max_workers
             (write_once (submit_all self g batch))).
    - intros s1 s2 Ha Hb. eapply write_once_step; eassumption.
    - repeat split; trivial. now left. }
  assert (H2 : returned_recorded s).
  { apply (run_invariant ftp_login sched cancel_futures max_workers
             returned_recorded).
    - intros s1 s2 Ha Hb. eapply returned_recorded_step; eassumption.
    - intros r E. discriminate E. }
  destruct H1 as (Hkeep & Hres & _). repeat split; trivial.
  intros r E. now apply H2.
Qed.

(** *** No future holds an exception *)

Definition no_exception (s : pool) : Prop :=
  (forall f, In f (completed s) -> exists r, f = Ret r) /\
  (forall e, status s <> Raised e).

Lemma attempt_returns : forall u p, exists r, attempt ftp_login u p = Ret r.
Proof.
  intros u p. unfold attempt, ftp_exchange.
  destruct (ftp_login u p); cbn; eexists; reflexivity.
Qed.

Lemma no_exception_step : forall s s',
  no_exception s -> stepR s s' -> no_exception s'.
Proof.
  intros s s' (Hd & Hst) Hstep.
  destruct Hstep; unfold no_exception; cbn [completed status] in *;
    try (split; [|assumption || discriminate]).
  - intros f Hf. apply in_app_or in Hf as [Hf|[<-|[]]]; [now apply Hd|].
    now exists None.
  - assumption.
  - intros f Hf. apply in_app_or in Hf as [Hf|[<-|[]]]; [now apply Hd|].
    apply attempt_returns.
  - intros f' Hf. apply Hd. eapply remove_nth_In; eassumption.
  - apply nth_error_In, Hd in H. destruct H. discriminate.
  - intros f' Hf. apply Hd. eapply remove_nth_In; eassumption.
  - intros f' Hf. apply Hd. eapply remove_nth_In; eassumption.
  - intros f [].
Qed.

Lemma exec_no_exception : forall self g batch e,
  status (execR (submit_all self g batch)) <> Raised e.
Proof.
  intros self g batch e.
  assert (Hinv : no_exception (execR (submit_all self g batch))).
  { apply (run_invariant ftp_login sched cancel_futures max_workers no_exception).
    - intros s1 s2 H1 H2. eapply no_exception_step; eassumption.
    - split; cbn; [intros f []|discriminate]. }
  apply Hinv.
Qed.

End Invariants.

(** ** The loop over the batches *)

Lemma cred_eq_dec : forall a b : string * string, {a = b} + {a <> b}.
Proof. decide equality; apply string_dec. Qed.

Lemma pool_needs_worker : forall max_workers,
  (1 <= max_workers)%Z -> ThreadPoolExecutor max_workers = Ret tt.
Proof.
  intros mw H. unfold ThreadPoolExecutor.
  destruct (Z.leb_spec mw 0); [lia|reflexivity].
Qed.

Lemma pool_refuses : forall max_workers,
  (max_workers <= 0)%Z ->
  ThreadPoolExecutor max_workers
  = Exc (ValueError "max_workers must be greater than 0").
Proof.
  intros mw H. unfold ThreadPoolExecutor.
  destruct (Z.leb_spec mw 0); [reflexivity|lia].
Qed.

Section Batches.

Variable ftp_login : string -> string -> ftp_reply.
Variable sched : nat -> nat.
Variable combinations : list (string * string).
Variable batch_size max_workers : Z.

Local Abbreviation loop :=
  (hybrid_batches ftp_login sched).

Lemma hybrid_batches_one_valid : forall x,
  (1 <= max_workers)%Z ->
  ftp_login (fst x) (snd x) = LoginOk ->
  forall indices self g,
  found self = false ->
  (forall c, In c (concat (batches_of combinations batch_size indices)) ->
             ftp_login (fst c) (snd c) = LoginOk -> c = x) ->
  In x (concat (batches_of combinations batch_size indices)) ->
  exists self' g',
    loop indices combinations batch_size max_workers self g
    = (Ret (Some x), self', g') /\
    found self' = true /\ result self' = Some x.
Proof.
  intros x Hw Hx indices.
  induction indices as [|i later IH]; intros self g F Huniq Hin.
  - destruct Hin.
  - cbn [hybrid_batches]. rewrite F, (pool_needs_worker _ Hw).
    cbn [batches_of map concat] in Huniq, Hin.
    set (batch := py_slice combinations i (i + batch_size)) in *.
    destruct (in_dec cred_eq_dec x batch) as [Hb|Hb].
    + destruct (exec_one_valid ftp_login sched false max_workers x self
                  (pool_created g) batch Hw Hx) as (S1 & F1 & R1); trivial.
      { intros c Hc. apply Huniq, in_or_app. now left. }
      cbv zeta. rewrite S1. eauto.
    + destruct (exec_none_valid ftp_login sched false max_workers self
                  (pool_created g) batch Hw) as (S1 & E1 & _); trivial.
      { intros c Hc Hok. apply Hb.
        rewrite <- (Huniq c); trivial. apply in_or_app. now left. }
      cbv zeta. rewrite S1, E1. apply IH; trivial.
      * intros c Hc. apply Huniq, in_or_app. now right.
      * apply in_app_or in Hin as [Hin|Hin]; [contradiction|assumption].
Qed.

Lemma hybrid_batches_none_valid :
  (1 <= max_workers)%Z ->
  forall indices self g,
  found self = false ->
  (forall c, In c (concat (batches_of combinations batch_size indices)) ->
             ftp_login (fst c) (snd c) <> LoginOk) ->
  exists g',
    loop indices combinations batch_size max_workers self g
    = (Ret None, self, g') /\
    attempted g' = attempted g
                   ++ concat (batches_of combinations batch_size indices).
Proof.
  intros Hw indices.
  induction indices as [|i later IH]; intros self g F Hnone.
  - exists g. cbn. now rewrite app_nil_r.
  - cbn [hybrid_batches]. rewrite F, (pool_needs_worker _ Hw).
    cbn [batches_of map concat] in *.
    set (batch := py_slice combinations i (i + batch_size)) in *.
    destruct (exec_none_valid ftp_login sched false max_workers self
                (pool_created g) batch Hw) as (S1 & E1 & L1); trivial.
    { intros c Hc. apply Hnone, in_or_app. now left. }
    cbv zeta. rewrite S1, E1.
    destruct (IH self (trace (exec ftp_login sched max_workers false
                                (submit_all self (pool_created g) batch))) F)
      as (g' & Hrun & Hlog).
    { intros c Hc. apply Hnone, in_or_app. now right. }
    exists g'. split; [exact Hrun|].
    rewrite Hlog, L1. cbn [pool_created attempted]. now rewrite app_assoc.
Qed.

Lemma perm_interleave : forall (A : Type) (a b c d : list A),
  Permutation ((a ++ b) ++ (c ++ d)) ((a ++ c) ++ (b ++ d)).
Proof.
  intros A a b c d. rewrite <- !app_assoc.
  apply Permutation_app_head. apply Permutation_app_swap_app.
Qed.

(** Whatever the outcome, what the loop tries is taken from its batches,
    each pair at most as often as the batches hold it. *)
Lemma hybrid_batches_log : forall indices self g,
  exists new rest,
    attempted (snd (loop indices combinations batch_size max_workers self g))
    = attempted g ++ new /\
    Permutation (concat (batches_of combinations batch_size indices))
                (new ++ rest).
Proof.
  intros indices.
  induction indices as [|i later IH]; intros self g.
  - exists [], []. cbn. now rewrite app_nil_r.
  - cbn [hybrid_batches batches_of map concat].
    set (batch := py_slice combinations i (i + batch_size)).
    set (others := concat (map (fun i0 => py_slice combinations i0 (i0 + batch_size)) later)).
    assert (Hidle : exists new rest,
               attempted g = attempted g ++ new /\
               Permutation (batch ++ others) (new ++ rest)).
    { exists [], (batch ++ others). now rewrite app_nil_r. }
    destruct (found self); [exact Hidle|].
    destruct (ThreadPoolExecutor max_workers); [|exact Hidle].
    destruct (exec_log_within ftp_login sched false max_workers self g batch)
      as (_ & new1 & rest1 & L1 & P1).
    cbv zeta.
    set (s := exec ftp_login sched max_workers false
                (submit_all self (pool_created g) batch)) in *.
    assert (Hstop : exists new rest,
               attempted (trace s) = attempted g ++ new /\
               Permutation (batch ++ others) (new ++ rest)).
    { exists new1, (rest1 ++ others). split; [assumption|].
      rewrite app_assoc. now apply Permutation_app_tail. }
    destruct (status s); try exact Hstop;
      destruct (IH (shared s) (trace s)) as (new2 & rest2 & L2 & P2);
      exists (new1 ++ new2), (rest1 ++ rest2);
      (split; [rewrite L2, L1; now rewrite app_assoc|]);
      (etransitivity; [apply Permutation_app; eassumption|apply perm_interleave]).
Qed.

Lemma hybrid_batches_no_exception :
  (1 <= max_workers)%Z ->
  forall indices self g e,
  fst (fst (loop indices combinations batch_size max_workers self g)) <> Exc e.
Proof.
  intros Hw indices.
  induction indices as [|i later IH]; intros self g e.
  - discriminate.
  - cbn [hybrid_batches]. destruct (found self); [discriminate|].
    rewrite (pool_needs_worker _ Hw). cbv zeta.
    destruct (status _) eqn:S1; try apply IH; try discriminate.
    exfalso. eapply exec_no_exception. exact S1.
Qed.

Lemma hybrid_batches_write_once : forall indices self g,
  (found self = true -> result self <> None) ->
  keeps_first_result self
    (loop indices combinations batch_size max_workers self g).
Proof.
  intros indices.
  induction indices as [|i later IH]; intros self g Hself.
  - repeat split; trivial. discriminate.
  - cbn [hybrid_batches].
    assert (Hidle : forall o, (forall r, o <> Ret (Some r)) ->
                              keeps_first_result self (o, self, g)).
    { intros o Ho. repeat split; trivial. intros r E. now apply Ho in E. }
    destruct (exec_write_once ftp_login sched false max_workers self
                (pool_created g) (py_slice combinations i (i + batch_size))
                Hself) as (Hres & _ & Hret).
    destruct (found self) eqn:F; [apply Hidle; discriminate|].
    destruct (ThreadPoolExecutor max_workers); [|apply Hidle; discriminate].
    cbv zeta in *.
    set (s := exec ftp_login sched max_workers false
                (submit_all self (pool_created g)
                   (py_slice combinations i (i + batch_size)))) in *.
    assert (Hnext : keeps_first_result self
              (loop later combinations batch_size max_workers
                 (shared s) (trace s))).
    { destruct (IH (shared s) (trace s) Hres) as (H1 & _ & H3).
      repeat split; trivial. rewrite F. discriminate. }
    destruct (status s) eqn:S1; try exact Hnext.
    + unfold keeps_first_result. cbn [fst snd]. rewrite F.
      repeat split; trivial; [discriminate|].
      intros r0 E. injection E as <-. now apply Hret.
    + unfold keeps_first_result. cbn [fst snd]. rewrite F.
      repeat split; trivial; discriminate.
Qed.

(** Without a worker no executor can be built: the first batch raises. *)
Lemma hybrid_batches_no_worker :
  (max_workers <= 0)%Z ->
  forall indices self g,
  loop indices combinations batch_size max_workers self g
  = match indices with
    | [] => (Ret None, self, g)
    | _ :: _ =>
        if found self then (Ret None, self, g)
        else (Exc (ValueError "max_workers must be greater than 0"), self, g)
    end.
Proof.
  intros Hw [|i later] self g; [reflexivity|].
  cbn [hybrid_batches]. now rewrite (pool_refuses _ Hw).
Qed.

End Batches.

(** ** The two searches *)

Lemma default_cap_length :
  cap_length default_max_combinations = Z.to_nat 1000000.
Proof. reflexivity. Qed.

Lemma hybrid_combinations_else : forall cupy self us ps,
  hybrid_combinations false cupy self us ps
  = generate_combinations_cpu self us ps default_max_combinations.
Proof. reflexivity. Qed.

Lemma hybrid_combinations_cpu : forall cupy self us ps,
  hybrid_combinations false cupy self us ps
  = firstn (Z.to_nat 1000000) (product us ps).
Proof.
  intros. unfold hybrid_combinations.
  rewrite generate_combinations_cpu_firstn. now rewrite default_cap_length.
Qed.

Lemma hybrid_combinations_small : forall cupy self us ps,
  (Z.of_nat (List.length us) * Z.of_nat (List.length ps) <= 1000000)%Z ->
  hybrid_combinations false cupy self us ps = product us ps.
Proof.
  intros cupy self us ps H. rewrite hybrid_combinations_cpu.
  apply firstn_all2. rewrite product_length. lia.
Qed.

(** With a positive [batch_size] the search is the loop over batches that
    cover [combinations]. *)
Lemma brute_force_hybrid_batches :
  forall ftp_login sched gpu cupy self g us ps batch_size max_workers,
  (1 <= batch_size)%Z ->
  exists indices,
    concat (batches_of (hybrid_combinations gpu cupy self us ps)
                       batch_size indices)
    = hybrid_combinations gpu cupy self us ps /\
    brute_force_hybrid ftp_login sched gpu cupy self g us ps
                       batch_size max_workers
    = hybrid_batches ftp_login sched indices
        (hybrid_combinations gpu cupy self us ps) batch_size max_workers self g.
Proof.
  intros ftp_login sched gpu cupy self g us ps bs mw Hbs.
  destruct (batches_cover (hybrid_combinations gpu cupy self us ps) bs Hbs)
    as (indices & Hrange & Hcover).
  exists indices. split; [assumption|].
  unfold brute_force_hybrid. cbv zeta. now rewrite Hrange.
Qed.

Lemma brute_force_cpu_one_valid :
  forall ftp_login sched self g us ps max_workers x,
  found self = false ->
  (1 <= max_workers)%Z ->
  ftp_login (fst x) (snd x) = LoginOk ->
  (forall c, In c (product us ps) ->
             ftp_login (fst c) (snd c) = LoginOk -> c = x) ->
  In x (product us ps) ->
  fst (fst (brute_force_cpu ftp_login sched self g us ps max_workers))
  = Ret (Some x).
Proof.
  intros ftp_login sched self g us ps mw x F Hw Hx Huniq Hin.
  unfold brute_force_cpu. rewrite (pool_needs_worker _ Hw). cbv zeta.
  destruct (exec_one_valid ftp_login sched true mw x self (pool_created g)
              (product us ps) Hw Hx Huniq Hin F) as (S1 & _).
  cbn [fst]. unfold after_loop. now rewrite S1.
Qed.

Lemma brute_force_hybrid_one_valid :
  forall ftp_login sched cupy self g us ps batch_size max_workers x,
  found self = false ->
  (1 <= max_workers)%Z ->
  (1 <= batch_size)%Z ->
  ftp_login (fst x) (snd x) = LoginOk ->
  (forall c, In c (product us ps) ->
             ftp_login (fst c) (snd c) = LoginOk -> c = x) ->
  In x (generate_combinations_cpu self us ps default_max_combinations) ->
  fst (fst (brute_force_hybrid ftp_login sched false cupy self g us ps
                               batch_size max_workers))
  = Ret (Some x).
Proof.
  intros ftp_login sched cupy self g us ps bs mw x F Hw Hbs Hx Huniq Hin.
  destruct (brute_force_hybrid_batches ftp_login sched false cupy self g us ps
              bs mw Hbs) as (indices & Hcover & ->).
  destruct (hybrid_batches_one_valid ftp_login sched
              (hybrid_combinations false cupy self us ps) bs mw x Hw Hx
              indices self g F) as (self' & g' & -> & _).
  - rewrite Hcover, hybrid_combinations_cpu. intros c Hc.
    apply Huniq. eapply In_firstn; eassumption.
  - rewrite Hcover. exact Hin.
  - reflexivity.
Qed.

Lemma brute_force_cpu_none_valid :
  forall ftp_login sched self g us ps max_workers,
  found self = false ->
  (1 <= max_workers)%Z ->
  (forall c, In c (product us ps) -> ftp_login (fst c) (snd c) <> LoginOk) ->
  exists g',
    brute_force_cpu ftp_login sched self g us ps max_workers
    = (Ret None, self, g') /\
    attempted g' = attempted g ++ product us ps.
Proof.
  intros ftp_login sched self g us ps mw F Hw Hnone.
  unfold brute_force_cpu. rewrite (pool_needs_worker _ Hw). cbv zeta.
  destruct (exec_none_valid ftp_login sched true mw self (pool_created g)
              (product us ps) Hw Hnone F) as (S1 & E1 & L1).
  eexists. split.
  - unfold after_loop. rewrite S1, E1. reflexivity.
  - exact L1.
Qed.

Lemma brute_force_hybrid_none_valid :
  forall ftp_login sched cupy self g us ps batch_size max_workers,
  found self = false ->
  (1 <= max_workers)%Z ->
  (1 <= batch_size)%Z ->
  (forall c, In c (generate_combinations_cpu self us ps default_max_combinations) ->
             ftp_login (fst c) (snd c) <> LoginOk) ->
  exists g',
    brute_force_hybrid ftp_login sched false cupy self g us ps
                       batch_size max_workers
    = (Ret None, self, g') /\
    attempted g'
    = attempted g ++ generate_combinations_cpu self us ps default_max_combinations.
Proof.
  intros ftp_login sched cupy self g us ps bs mw F Hw Hbs Hnone.
  destruct (brute_force_hybrid_batches ftp_login sched false cupy self g us ps
              bs mw Hbs) as (indices & Hcover & ->).
  destruct (hybrid_batches_none_valid ftp_login sched
              (hybrid_combinations false cupy self us ps) bs mw Hw
              indices self g F) as (g' & Hrun & Hlog).
  - rewrite Hcover. exact Hnone.
  - exists g'. split; [exact Hrun|]. rewrite Hlog, Hcover. reflexivity.
Qed.

(** *** The wordlists of 1001 x 1000 pairs *)

Lemma list_prod_app : forall (A B : Type) (l1 l2 : list A) (l : list B),
  list_prod (l1 ++ l2) l = list_prod l1 l ++ list_prod l2 l.
Proof.
  intros A B l1 l2 l. induction l1 as [|a l1 IH]; [reflexivity|].
  cbn [app list_prod]. now rewrite IH, app_assoc.
Qed.

Lemma many_lengths :
  List.length many_usernames = 1001%nat /\
  List.length many_passwords = 1000%nat.
Proof.
  unfold many_usernames, many_passwords.
  rewrite !length_app, !repeat_length. split; reflexivity.
Qed.

(** The cap cuts the enumeration just before the pairs of ["root"]. *)
Lemma many_combinations : forall self,
  generate_combinations_cpu self many_usernames many_passwords
    default_max_combinations
  = product (repeat "guest" 1000) many_passwords.
Proof.
  intros self. rewrite generate_combinations_cpu_firstn.
  unfold product, many_usernames. rewrite list_prod_app.
  assert (E : cap_length default_max_combinations
              = List.length (list_prod (repeat "guest" 1000) many_passwords)).
  { rewrite length_prod, repeat_length, (proj2 many_lengths).
    unfold cap_length, default_max_combinations. lia. }
  rewrite E, firstn_app, Nat.sub_diag, firstn_all. cbn [firstn].
  apply app_nil_r.
Qed.




(** For a cap of at least one the builder does what C2 says: the number of
    pairs is the smaller of [|usernames| * |passwords|] and the cap, every
    pair joins a username and a password of the inputs, and the output is
    an initial segment of the cross product, so no pair occurs more often
    than there. *)
Lemma generate_combinations_cpu_capped : forall self us ps cap,
  (1 <= cap)%Z ->
  Z.of_nat (List.length (generate_combinations_cpu self us ps cap))
  = Z.min (Z.of_nat (List.length us) * Z.of_nat (List.length ps)) cap /\
  (forall u p, In (u, p) (generate_combinations_cpu self us ps cap) ->
               In u us /\ In p ps) /\
  exists rest, generate_combinations_cpu self us ps cap ++ rest = product us ps.
Proof.
  intros self us ps cap Hcap. split; [|split].
  - now apply generate_combinations_cpu_length.
  - intros u p H. rewrite generate_combinations_cpu_firstn in H.
    apply In_firstn in H. now apply in_prod_iff in H.
  - exists (skipn (cap_length cap) (product us ps)).
    rewrite generate_combinations_cpu_firstn. apply firstn_skipn.
Qed.

(** *** More on [range] *)

Lemma py_range_nothing : forall stop step,
  (0 <= stop)%Z -> (step < 0)%Z -> py_range stop step = Ret [].
Proof.
  intros stop step Hstop Hstep. unfold py_range.
  destruct (Z.eqb_spec step 0) as [E|_]; [lia|].
  destruct (Z.ltb_spec 0 step) as [E|_]; [lia|].
  assert (Hq : ((stop + step + 1) / step <= 0)%Z).
  { rewrite <- Z.div_opp_opp by lia.
    assert ((- (stop + step + 1)) / (- step) < 1)%Z; [|lia].
    apply Z.div_lt_upper_bound; lia. }
  replace (Z.to_nat ((stop + step + 1) / step)) with 0%nat by lia.
  reflexivity.
Qed.

Lemma py_range_empty_list : forall step,
  step <> 0%Z -> py_range 0 step = Ret [].
Proof.
  intros step Hstep.
  destruct (Z.lt_ge_cases step 0) as [Hneg|Hpos];
    [apply py_range_nothing; lia|].
  unfold py_range.
  destruct (Z.eqb_spec step 0) as [E|_]; [contradiction|].
  destruct (Z.ltb_spec 0 step) as [_|E]; [|lia].
  rewrite Z.div_small by lia. reflexivity.
Qed.

Lemma py_range_first : forall stop step,
  (1 <= stop)%Z -> (1 <= step)%Z ->
  exists i later, py_range stop step = Ret (i :: later).
Proof.
  intros stop step Hstop Hstep. unfold py_range.
  destruct (Z.eqb_spec step 0) as [E|_]; [lia|].
  destruct (Z.ltb_spec 0 step) as [_|E]; [|lia].
  assert (Hq : (1 <= (stop + step - 1) / step)%Z)
    by (apply Z.div_le_lower_bound; lia).
  destruct (Z.to_nat ((stop + step - 1) / step)) as [|n] eqn:En; [lia|].
  cbn [seq map]. eauto.
Qed.

(** Whatever the step, the batches taken at the values of [range] hold no
    pair more often than the list does. *)
Lemma batches_within : forall combinations batch_size indices,
  py_range (Z.of_nat (List.length combinations)) batch_size = Ret indices ->
  exists rest,
    Permutation combinations
      (concat (batches_of combinations batch_size indices) ++ rest).
Proof.
  intros l bs indices Hrange.
  destruct (Z.lt_ge_cases bs 1) as [Hlow|Hpos].
  - exists l. destruct (Z.eq_dec bs 0) as [->|Hne].
    + discriminate Hrange.
    + rewrite py_range_nothing in Hrange by lia.
      injection Hrange as <-. apply Permutation_refl.
  - exists []. destruct (batches_cover l bs) as (indices' & Hrange' & Hcover);
      [lia|].
    rewrite Hrange in Hrange'. injection Hrange' as <-.
    rewrite Hcover, app_nil_r. apply Permutation_refl.
Qed.

(** *** An executor without tasks *)

Lemma exec_nothing : forall ftp_login sched max_workers cancel_futures self g,
  exec ftp_login sched max_workers cancel_futures (submit_all self g [])
  = mkPool self [] [] [] Exhausted (tock g).
Proof.
  intros. unfold exec, measure, submit_all. cbn [pending running completed status List.length Nat.mul Nat.add run].
  unfold pick, enabled. cbn [pending running completed status List.length seq map app trace].
  rewrite Nat.mod_1_r. reflexivity.
Qed.

Lemma brute_force_cpu_write_once :
  forall ftp_login sched self g us ps max_workers,
  (found self = true -> result self <> None) ->
  keeps_first_result self
    (brute_force_cpu ftp_login sched self g us ps max_workers).
Proof.
  intros ftp_login sched self g us ps mw Hself. unfold brute_force_cpu.
  destruct (ThreadPoolExecutor mw).
  - cbv zeta.
    destruct (exec_write_once ftp_login sched true mw self (pool_created g)
                (product us ps) Hself) as (Hres & Hkeep & Hret).
    repeat split; trivial. cbn [fst snd]. unfold after_loop.
    intros r E. apply Hret. destruct (status _); congruence.
  - repeat split; trivial. discriminate.
Qed.

Lemma brute_force_hybrid_write_once :
  forall ftp_login sched gpu cupy self g us ps batch_size max_workers,
  (found self = true -> result self <> None) ->
  keeps_first_result self
    (brute_force_hybrid ftp_login sched gpu cupy self g us ps
                        batch_size max_workers).
Proof.
  intros ftp_login sched gpu cupy self g us ps bs mw Hself.
  unfold brute_force_hybrid. cbv zeta.
  destruct (py_range _ bs).
  - now apply hybrid_batches_write_once.
  - repeat split; trivial. discriminate.
Qed.

(** * The claims *)




(** C2 fails on the code for a cap of zero: the length test follows the
    append, so the first pair is returned where the claim has the output
    truncated to no pair at all. *)
Theorem generate_combinations_cpu_zero_cap : forall self,
  generate_combinations_cpu self ["admin"; "root"] ["1234"; "admin"] 0
  = [("admin", "1234")] /\
  Z.of_nat (List.length
    (generate_combinations_cpu self ["admin"; "root"] ["1234"; "admin"] 0))
  <> Z.min (2 * 2) 0.
Proof. intros self. split; [reflexivity|]. cbn. lia. Qed.

(** C3, as stated, fails.  On the wordlists of 1001 x 1000 pairs the
    batches of [brute_force_hybrid], put end to end, are no permutation of
    the cross product [brute_force_cpu] enumerates: 1000 pairs are missing. *)
Lemma batches_miss_pairs :
  exists indices,
    py_range (Z.of_nat (List.length
                (hybrid_combinations false no_cupy (init "target" 21 5)
                   many_usernames many_passwords))) 1000
    = Ret indices /\
    ~ Permutation
        (concat (batches_of
                   (hybrid_combinations false no_cupy (init "target" 21 5)
                      many_usernames many_passwords) 1000 indices))
        (product many_usernames many_passwords).
Proof.
  set (self := init "target" 21 5).
  destruct (batches_cover
              (hybrid_combinations false no_cupy self
                 many_usernames many_passwords) 1000)
    as (indices & Hrange & Hcover); [lia|].
  exists indices. split; [exact Hrange|].
  rewrite Hcover. intros Hperm. apply Permutation_length in Hperm.
  rewrite hybrid_combinations_else, many_combinations in Hperm.
  rewrite !product_length, repeat_length in Hperm.
  rewrite (proj1 many_lengths), (proj2 many_lengths) in Hperm.
  pose proof (proj1 (Nat.mul_cancel_r 1000 1001 1000 (Nat.neq_succ_0 999)) Hperm)
    as E.
  discriminate E.
Qed.

(** C3, amended.  With the GPU path unavailable and [batch_size >= 1], the
    batches of [brute_force_hybrid] put end to end are the first 1,000,000
    pairs of the cross product, in its order: among those no pair is missing
    and none is repeated.  They are the whole cross product, which
    [brute_force_cpu] enumerates, when it has at most 1,000,000 pairs. *)
Theorem batches_cover_generated : forall cupy self us ps batch_size,
  (1 <= batch_size)%Z ->
  exists indices,
    py_range (Z.of_nat (List.length
                (hybrid_combinations false cupy self us ps))) batch_size
    = Ret indices /\
    concat (batches_of (hybrid_combinations false cupy self us ps)
                       batch_size indices)
    = firstn (Z.to_nat 1000000) (product us ps) /\
    ((Z.of_nat (List.length us) * Z.of_nat (List.length ps) <= 1000000)%Z ->
     Permutation
       (concat (batches_of (hybrid_combinations false cupy self us ps)
                           batch_size indices))
       (product us ps)).
Proof.
  intros cupy self us ps bs Hbs.
  destruct (batches_cover (hybrid_combinations false cupy self us ps) bs Hbs)
    as (indices & Hrange & Hcover).
  exists indices. split; [exact Hrange|]. split.
  - rewrite Hcover. apply hybrid_combinations_cpu.
  - intros Hsmall. rewrite Hcover.
    rewrite hybrid_combinations_small by assumption. apply Permutation_refl.
Qed.

Lemma batches_cover_generated_witness :
  exists indices,
    py_range (Z.of_nat (List.length
                (hybrid_combinations false no_cupy (init "target" 21 5)
                   ["admin"; "root"] ["1234"; "admin"]))) 3
    = Ret indices /\
    Permutation
      (concat (batches_of
                 (hybrid_combinations false no_cupy (init "target" 21 5)
                    ["admin"; "root"] ["1234"; "admin"]) 3 indices))
      (product ["admin"; "root"] ["1234"; "admin"]).
Proof.
  destruct (batches_cover_generated no_cupy (init "target" 21 5)
              ["admin"; "root"] ["1234"; "admin"] 3) as (indices & Hr & _ & Hp).
  - lia.
  - exists indices. split; [exact Hr|]. apply Hp. cbn. lia.
Defined.

(** C4, as stated, fails.  On the wordlists of 1001 x 1000 pairs, none
    accepted, [brute_force_hybrid] returns [None] having tried 1,000,000
    pairs, while the combination count is 1,001,000. *)
Lemma hybrid_tests_fewer_than_total :
  exists g',
    brute_force_hybrid always_fails round_robin false no_cupy
      (init "target" 21 5) ghost0 many_usernames many_passwords 1000 8
    = (Ret None, init "target" 21 5, g') /\
    Z.of_nat (List.length (attempted g')) = 1000000%Z /\
    Z.of_nat (List.length (product many_usernames many_passwords))
    = 1001000%Z.
Proof.
  destruct (brute_force_hybrid_none_valid always_fails round_robin no_cupy
              (init "target" 21 5) ghost0 many_usernames many_passwords 1000 8)
    as (g' & Hrun & Hlog); try reflexivity; try lia.
  { intros c _. discriminate. }
  exists g'. split; [exact Hrun|]. rewrite Hlog. cbn [ghost0 attempted app].
  rewrite generate_combinations_cpu_length by (unfold default_max_combinations; lia).
  rewrite product_length, (proj1 many_lengths), (proj2 many_lengths).
  unfold default_max_combinations. split; lia.
Qed.

(** C4, amended.  If no pair of the cross product is accepted, both
    searches return [None] (for [max_workers >= 1], on an object whose flag
    is not set) having tried every combination they generated, each once:
    the whole cross product for [brute_force_cpu]; for [brute_force_hybrid]
    (GPU path unavailable, [batch_size >= 1]) the list of
    [generate_combinations_cpu], of length
    [min (|usernames| * |passwords|) 1000000]. *)
Theorem none_valid_all_tested :
  forall ftp_login sched cupy self g us ps batch_size max_workers,
  found self = false ->
  (1 <= max_workers)%Z ->
  (1 <= batch_size)%Z ->
  (forall c, In c (product us ps) -> ftp_login (fst c) (snd c) <> LoginOk) ->
  (exists g',
     brute_force_cpu ftp_login sched self g us ps max_workers
     = (Ret None, self, g') /\
     attempted g' = attempted g ++ product us ps) /\
  (exists g',
     brute_force_hybrid ftp_login sched false cupy self g us ps
                        batch_size max_workers
     = (Ret None, self, g') /\
     attempted g'
     = attempted g
       ++ generate_combinations_cpu self us ps default_max_combinations /\
     Z.of_nat (List.length
       (generate_combinations_cpu self us ps default_max_combinations))
     = Z.min (Z.of_nat (List.length us) * Z.of_nat (List.length ps)) 1000000).
Proof.
  intros ftp_login sched cupy self g us ps bs mw F Hw Hbs Hnone. split.
  - now apply brute_force_cpu_none_valid.
  - destruct (brute_force_hybrid_none_valid ftp_login sched cupy self g us ps
                bs mw F Hw Hbs) as (g' & Hrun & Hlog).
    + intros c Hc. apply Hnone.
      rewrite generate_combinations_cpu_firstn in Hc.
      eapply In_firstn; eassumption.
    + exists g'. repeat split; trivial.
      apply generate_combinations_cpu_length.
      unfold default_max_combinations. lia.
Qed.

Lemma none_valid_all_tested_witness :
  (exists g',
     brute_force_cpu always_fails round_robin (init "target" 21 5) ghost0
       ["admin"; "root"] ["1234"; "admin"] 2
     = (Ret None, init "target" 21 5, g') /\
     List.length (attempted g') = 4%nat) /\
  (exists g',
     brute_force_hybrid always_fails round_robin false no_cupy
       (init "target" 21 5) ghost0 ["admin"; "root"] ["1234"; "admin"] 3 2
     = (Ret None, init "target" 21 5, g') /\
     List.length (attempted g') = 4%nat).
Proof.
  destruct (none_valid_all_tested always_fails round_robin no_cupy
              (init "target" 21 5) ghost0 ["admin"; "root"] ["1234"; "admin"]
              3 2) as [(g1 & R1 & L1) (g2 & R2 & L2 & _)].
  - reflexivity.
  - lia.
  - lia.
  - intros c _. discriminate.
  - split; [exists g1|exists g2]; (split; [assumption|]).
    + rewrite L1. reflexivity.
    + rewrite L2. reflexivity.
Defined.

(** C6, as stated, fails.  With no username there is nothing to dispatch,
    and [brute_force_hybrid] called with [max_workers = 0] returns [None]
    without raising. *)
Lemma hybrid_no_worker_no_error :
  brute_force_hybrid always_fails round_robin false no_cupy
    (init "target" 21 5) ghost0 [] ["admin"] 1000 0
  = (Ret None, init "target" 21 5, ghost0).
Proof. reflexivity. Qed.

(** C6, amended.  With [max_workers <= 0], [brute_force_cpu] always raises
    the [ValueError] of the executor's constructor, before any attempt;
    [brute_force_hybrid] never makes an attempt either and raises that
    error whenever it has a batch to dispatch: flag not set,
    [batch_size >= 1] and a non-empty combination list. *)
Theorem no_worker_no_attempt :
  forall ftp_login sched gpu cupy self g us ps batch_size max_workers,
  (max_workers <= 0)%Z ->
  brute_force_cpu ftp_login sched self g us ps max_workers
  = (Exc (ValueError "max_workers must be greater than 0"), self, g) /\
  snd (brute_force_hybrid ftp_login sched gpu cupy self g us ps
                          batch_size max_workers) = g /\
  (found self = false ->
   (1 <= batch_size)%Z ->
   hybrid_combinations gpu cupy self us ps <> [] ->
   brute_force_hybrid ftp_login sched gpu cupy self g us ps
                      batch_size max_workers
   = (Exc (ValueError "max_workers must be greater than 0"), self, g)).
Proof.
  intros ftp_login sched gpu cupy self g us ps bs mw Hw. split; [|split].
  - unfold brute_force_cpu. now rewrite (pool_refuses _ Hw).
  - unfold brute_force_hybrid. cbv zeta.
    destruct (py_range _ bs) as [indices|e]; [|reflexivity].
    rewrite hybrid_batches_no_worker by assumption.
    destruct indices; [reflexivity|]. now destruct (found self).
  - intros F Hbs Hne. unfold brute_force_hybrid. cbv zeta.
    destruct (py_range_first
                (Z.of_nat (List.length (hybrid_combinations gpu cupy self us ps)))
                bs) as (i & later & ->); trivial.
    { destruct (hybrid_combinations gpu cupy self us ps);
        [contradiction|cbn [List.length]; lia]. }
    rewrite hybrid_batches_no_worker by assumption. now rewrite F.
Qed.

Lemma no_worker_no_attempt_witness :
  brute_force_cpu only_root_admin round_robin (init "target" 21 5) ghost0
    ["admin"; "root"] ["1234"; "admin"] 0
  = (Exc (ValueError "max_workers must be greater than 0"),
     init "target" 21 5, ghost0) /\
  brute_force_hybrid only_root_admin round_robin false no_cupy
    (init "target" 21 5) ghost0 ["admin"; "root"] ["1234"; "admin"] 3 (-1)
  = (Exc (ValueError "max_workers must be greater than 0"),
     init "target" 21 5, ghost0).
Proof.
  destruct (no_worker_no_attempt only_root_admin round_robin false no_cupy
              (init "target" 21 5) ghost0 ["admin"; "root"] ["1234"; "admin"]
              3 0) as (Hcpu & _ & _); [lia|].
  destruct (no_worker_no_attempt only_root_admin round_robin false no_cupy
              (init "target" 21 5) ghost0 ["admin"; "root"] ["1234"; "admin"]
              3 (-1)) as (_ & _ & Hhybrid); [lia|].
  split; [exact Hcpu|]. apply Hhybrid.
  - reflexivity.
  - lia.
  - discriminate.
Defined.

(** C7, as stated, fails.  With no username the combination list is empty,
    yet [brute_force_cpu] constructs its executor before it looks at the
    list. *)
Lemma cpu_builds_pool_for_nothing :
  product [] ["admin"] = [] /\
  pools (snd (brute_force_cpu always_fails round_robin (init "target" 21 5)
                ghost0 [] ["admin"] 10))
  = 1%nat.
Proof. split; reflexivity. Qed.

(** C7, amended.  For an empty cross product neither search makes an
    attempt.  [brute_force_hybrid] (GPU path unavailable, [batch_size]
    not zero) returns [None] and constructs no executor.
    [brute_force_cpu] constructs one executor, with no task, and returns
    [None] when [max_workers >= 1]. *)
Theorem empty_space_no_attempt :
  forall ftp_login sched cupy self g us ps batch_size max_workers,
  product us ps = [] ->
  (batch_size <> 0%Z ->
   brute_force_hybrid ftp_login sched false cupy self g us ps
                      batch_size max_workers
   = (Ret None, self, g)) /\
  ((1 <= max_workers)%Z ->
   exists g',
     brute_force_cpu ftp_login sched self g us ps max_workers
     = (Ret None, self, g') /\
     attempted g' = attempted g /\ pools g' = S (pools g)).
Proof.
  intros ftp_login sched cupy self g us ps bs mw Hempty. split.
  - intros Hbs. unfold brute_force_hybrid. cbv zeta.
    rewrite hybrid_combinations_cpu, Hempty, firstn_nil. cbn [List.length].
    now rewrite py_range_empty_list.
  - intros Hw. unfold brute_force_cpu.
    rewrite (pool_needs_worker _ Hw), Hempty. cbv zeta.
    rewrite exec_nothing. eexists. repeat split.
Qed.

Lemma empty_space_no_attempt_witness :
  brute_force_hybrid always_accepts round_robin false no_cupy
    (init "target" 21 5) ghost0 [] ["admin"] 1000 8
  = (Ret None, init "target" 21 5, ghost0) /\
  exists g',
    brute_force_cpu always_accepts round_robin (init "target" 21 5) ghost0
      [] ["admin"] 10
    = (Ret None, init "target" 21 5, g') /\
    attempted g' = [] /\ pools g' = 1%nat.
Proof.
  destruct (empty_space_no_attempt always_accepts round_robin no_cupy
              (init "target" 21 5) ghost0 [] ["admin"] 1000 8 eq_refl)
    as [Hhybrid _].
  destruct (empty_space_no_attempt always_accepts round_robin no_cupy
              (init "target" 21 5) ghost0 [] ["admin"] 1000 10 eq_refl)
    as [_ Hcpu].
  split; [apply Hhybrid; discriminate|]. apply Hcpu. lia.
Defined.

(** C8.  [try_credentials] never raises: whatever the FTP exchange does,
    the call returns, and it returns [None] whenever the exchange raised,
    be it a refusal, a timeout, a connection error or any other fault.
    The fault costs that one task only and the search goes on with the
    others: on an object whose flag is not set, with at least one worker
    (and [batch_size >= 1], GPU path unavailable, for
    [brute_force_hybrid]), if every exchange of the cross product raises,
    each pair the search generated is still tried, exactly once, and the
    search returns [None]; if every exchange raises but that of one pair,
    the search returns that pair.  With at least one worker (and, for
    [brute_force_hybrid], a [batch_size] other than zero) neither search
    raises. *)
Theorem try_credentials_never_raises : forall ftp_login self u p,
  (exists r, try_credentials ftp_login self u p = Ret r) /\
  (forall e, ftp_login u p = Raises e ->
             try_credentials ftp_login self u p = Ret None) /\
  (forall sched cupy g us ps batch_size max_workers,
     found self = false ->
     (1 <= max_workers)%Z ->
     (1 <= batch_size)%Z ->
     (forall c, In c (product us ps) ->
                exists e, ftp_login (fst c) (snd c) = Raises e) ->
     (exists g' new,
        brute_force_cpu ftp_login sched self g us ps max_workers
        = (Ret None, self, g') /\
        attempted g' = attempted g ++ new /\
        Permutation new (product us ps)) /\
     (exists g' new,
        brute_force_hybrid ftp_login sched false cupy self g us ps
                           batch_size max_workers
        = (Ret None, self, g') /\
        attempted g' = attempted g ++ new /\
        Permutation new
          (generate_combinations_cpu self us ps default_max_combinations))) /\
  (forall sched cupy g us ps batch_size max_workers x,
     found self = false ->
     (1 <= max_workers)%Z ->
     (1 <= batch_size)%Z ->
     In x (product us ps) ->
     ftp_login (fst x) (snd x) = LoginOk ->
     (forall c, In c (product us ps) -> c <> x ->
                exists e, ftp_login (fst c) (snd c) = Raises e) ->
     fst (fst (brute_force_cpu ftp_login sched self g us ps max_workers))
     = Ret (Some x) /\
     (In x (generate_combinations_cpu self us ps default_max_combinations) ->
      fst (fst (brute_force_hybrid ftp_login sched false cupy self g us ps
                                   batch_size max_workers))
      = Ret (Some x))) /\
  (forall sched g us ps max_workers e,
     (1 <= max_workers)%Z ->
     fst (fst (brute_force_cpu ftp_login sched self g us ps max_workers))
     <> Exc e) /\
  (forall sched gpu cupy g us ps batch_size max_workers e,
     (1 <= max_workers)%Z ->
     batch_size <> 0%Z ->
     fst (fst (brute_force_hybrid ftp_login sched gpu cupy self g us ps
                                  batch_size max_workers))
     <> Exc e).
Proof.
  intros ftp_login self u p.
  assert (Hfault : forall e, ftp_login u p = Raises e ->
                             try_credentials ftp_login self u p = Ret None).
  { intros e He. unfold try_credentials.
    destruct (found self); [reflexivity|]. eapply attempt_fault; eassumption. }
  split; [|split; [exact Hfault|split; [|split; [|split]]]].
  - unfold try_credentials. destruct (found self); [now exists None|].
    apply attempt_returns.
  - intros sched cupy g us ps bs mw F Hw Hbs Hall.
    assert (Hnone : forall c, In c (product us ps) ->
                              ftp_login (fst c) (snd c) <> LoginOk).
    { intros c Hc. destruct (Hall c Hc) as (e & ->). discriminate. }
    split.
    + destruct (brute_force_cpu_none_valid ftp_login sched self g us ps mw
                  F Hw Hnone) as (g' & Hrun & Hlog).
      exists g', (product us ps). repeat split; trivial.
    + destruct (brute_force_hybrid_none_valid ftp_login sched cupy self g
                  us ps bs mw F Hw Hbs) as (g' & Hrun & Hlog).
      { intros c Hc. apply Hnone.
        rewrite generate_combinations_cpu_firstn in Hc.
        eapply In_firstn; eassumption. }
      exists g', (generate_combinations_cpu self us ps default_max_combinations).
      repeat split; trivial.
  - intros sched cupy g us ps bs mw x F Hw Hbs Hin Hx Hothers.
    assert (Huniq : forall c, In c (product us ps) ->
                              ftp_login (fst c) (snd c) = LoginOk -> c = x).
    { intros c Hc Hok. destruct (cred_eq_dec c x) as [E|Hne]; [exact E|].
      destruct (Hothers c Hc Hne) as (e & He). congruence. }
    split.
    + now apply brute_force_cpu_one_valid.
    + intros Hgen. now apply brute_force_hybrid_one_valid.
  - intros sched g us ps mw e Hw. unfold brute_force_cpu.
    rewrite (pool_needs_worker _ Hw). cbv zeta. cbn [fst].
    unfold after_loop. destruct (status _) eqn:S1; try discriminate.
    exfalso. eapply exec_no_exception. exact S1.
  - intros sched gpu cupy g us ps bs mw e Hw Hbs.
    unfold brute_force_hybrid. cbv zeta. unfold py_range.
    destruct (Z.eqb_spec bs 0) as [E|_]; [contradiction|].
    now apply hybrid_batches_no_exception.
Qed.

Lemma try_credentials_never_raises_witness :
  try_credentials stalled (init "target" 21 5) "root" "admin" = Ret None /\
  (exists g' new,
     brute_force_cpu stalled first_enabled (init "target" 21 5) ghost0
       ["admin"; "root"] ["1234"; "admin"] 2
     = (Ret None, init "target" 21 5, g') /\
     attempted g' = new /\
     Permutation new (product ["admin"; "root"] ["1234"; "admin"])) /\
  fst (fst (brute_force_cpu only_root_admin round_robin (init "target" 21 5)
              ghost0 ["admin"; "root"] ["1234"; "admin"] 2))
  = Ret (Some ("root", "admin")).
Proof.
  destruct (try_credentials_never_raises stalled (init "target" 21 5)
              "root" "admin") as (_ & Hnone & Hgoes & _).
  destruct (try_credentials_never_raises only_root_admin (init "target" 21 5)
              "root" "admin") as (_ & _ & _ & Hone & _).
  split; [|split].
  - apply (Hnone socket_timeout). reflexivity.
  - destruct (Hgoes first_enabled no_cupy ghost0 ["admin"; "root"]
                ["1234"; "admin"] 1000%Z 2%Z) as [(g' & new & R & L & P) _].
    + reflexivity.
    + lia.
    + lia.
    + intros c _. now exists socket_timeout.
    + exists g', new. repeat split; trivial.
  - destruct (Hone round_robin no_cupy ghost0 ["admin"; "root"]
                ["1234"; "admin"] 1000%Z 2%Z ("root", "admin"))
      as [Hcpu _]; [| | | | | |exact Hcpu].
    + reflexivity.
    + lia.
    + lia.
    + cbn. auto.
    + reflexivity.
    + intros c Hc Hne. cbn in Hc.
      destruct Hc as [<-|[<-|[<-|[<-|[]]]]];
        try (exists error_perm; reflexivity).
      now elim Hne.
Defined.

(** C9.  The builder enumerates username-major: below the smaller of
    [|usernames| * |passwords|] and [max_combinations], the k-th pair is
    [(usernames[k div |passwords|], passwords[k mod |passwords|])]; and the
    output depends on the arguments alone, not on the object. *)
Theorem generate_combinations_cpu_order : forall self us ps cap k,
  (Z.of_nat k
   < Z.min (Z.of_nat (List.length us) * Z.of_nat (List.length ps)) cap)%Z ->
  (exists u p,
     nth_error us (k / List.length ps) = Some u /\
     nth_error ps (k mod List.length ps) = Some p /\
     nth_error (generate_combinations_cpu self us ps cap) k = Some (u, p)) /\
  (forall self', generate_combinations_cpu self' us ps cap
                 = generate_combinations_cpu self us ps cap).
Proof.
  intros self us ps cap k Hk. split.
  - destruct (product_nth_error us ps k) as (u & p & Hu & Hp & Hup); [lia|].
    exists u, p. repeat split; trivial.
    rewrite generate_combinations_cpu_firstn, nth_error_firstn.
    destruct (Nat.ltb_spec k (cap_length cap)) as [_|Hge]; [exact Hup|].
    unfold cap_length in Hge. lia.
  - intros self'. reflexivity.
Qed.

Lemma generate_combinations_cpu_order_witness :
  nth_error (generate_combinations_cpu (init "target" 21 5)
               ["admin"; "root"] ["1234"; "admin"] 3) 2
  = Some ("root", "1234").
Proof.
  destruct (generate_combinations_cpu_order (init "target" 21 5)
              ["admin"; "root"] ["1234"; "admin"] 3 2) as [(u & p & Hu & Hp & Hk) _].
  - cbn. lia.
  - cbn in Hu, Hp. injection Hu as <-. injection Hp as <-. exact Hk.
Defined.

(** C10.  With the GPU path unavailable [brute_force_hybrid], whatever its
    arguments, the state of the object and the schedule, tries only pairs
    among the first 1,000,000 of the cross product, each at most as often
    as it occurs there; so at most 1,000,000 attempts are made and the pairs
    beyond are never tried.  The list it works on is the one
    [generate_combinations_cpu] returns for its default cap. *)
Theorem hybrid_capped :
  forall ftp_login sched cupy self g us ps batch_size max_workers,
  hybrid_combinations false cupy self us ps
  = generate_combinations_cpu self us ps 1000000 /\
  generate_combinations_cpu self us ps 1000000
  = firstn (Z.to_nat 1000000) (product us ps) /\
  exists new rest,
    attempted (snd (brute_force_hybrid ftp_login sched false cupy self g
                      us ps batch_size max_workers))
    = attempted g ++ new /\
    Permutation (firstn (Z.to_nat 1000000) (product us ps)) (new ++ rest) /\
    (Z.of_nat (List.length new) <= 1000000)%Z.
Proof.
  intros ftp_login sched cupy self g us ps bs mw.
  split; [reflexivity|].
  split; [apply generate_combinations_cpu_firstn|].
  assert (Hsub : exists new rest,
             attempted (snd (brute_force_hybrid ftp_login sched false cupy
                               self g us ps bs mw))
             = attempted g ++ new /\
             Permutation (firstn (Z.to_nat 1000000) (product us ps))
                         (new ++ rest)).
  { rewrite <- hybrid_combinations_cpu with (cupy := cupy) (self := self).
    unfold brute_force_hybrid. cbv zeta.
    destruct (py_range _ bs) as [indices|e] eqn:Hrange.
    - destruct (batches_within _ _ _ Hrange) as (rest' & Hperm').
      destruct (hybrid_batches_log ftp_login sched
                  (hybrid_combinations false cupy self us ps) bs mw
                  indices self g) as (new & rest & Hlog & Hperm).
      exists new, (rest ++ rest'). split; [exact Hlog|].
      rewrite app_assoc. etransitivity; [exact Hperm'|].
      now apply Permutation_app_tail.
    - exists [], (hybrid_combinations false cupy self us ps). split.
      + cbn. now rewrite app_nil_r.
      + apply Permutation_refl. }
  destruct Hsub as (new & rest & Hlog & Hperm).
  exists new, rest. repeat split; trivial.
  apply Permutation_length in Hperm.
  rewrite length_app in Hperm.
  pose proof (firstn_le_length (Z.to_nat 1000000) (product us ps)).
  lia.
Qed.

(** * Further properties of the searches *)

Section MoreInvariants.

Variable ftp_login : string -> string -> ftp_reply.
Variable sched : nat -> nat.
Variable cancel_futures : bool.
Variable max_workers : Z.

Local Abbreviation stepM := (step ftp_login cancel_futures).
Local Abbreviation execM :=
  (exec ftp_login sched max_workers cancel_futures).
Local Abbreviation runM :=
  (run ftp_login sched max_workers cancel_futures).

Lemma attempt_some : forall u p c,
  attempt ftp_login u p = Ret (Some c) ->
  c = (u, p) /\ ftp_login u p = LoginOk.
Proof.
  intros u p c H. unfold attempt, ftp_exchange in H.
  destruct (ftp_login u p); cbn in H; [|discriminate].
  injection H as <-. now split.
Qed.

(** *** Whatever is returned was accepted *)

Definition results_sound (batch : list (string * string)) (s : pool) : Prop :=
  (forall c, In c (pending s) \/ In c (running s) -> In c batch) /\
  (forall c, In (Ret (Some c)) (completed s) ->
             In c batch /\ ftp_login (fst c) (snd c) = LoginOk) /\
  (forall r, status s = Returned r ->
             In r batch /\ ftp_login (fst r) (snd r) = LoginOk).

Lemma results_sound_step : forall batch s s',
  results_sound batch s -> stepM s s' -> results_sound batch s'.
Proof.
  intros batch s s' (Hq & Hd & Hst) Hstep.
  destruct Hstep; unfold results_sound;
    cbn [pending running completed status] in *.
  - split; [|split; [|assumption]].
    + intros c [Hc|Hc]; apply Hq; [left; now right|now right].
    + intros c Hc. apply in_app_or in Hc as [Hc|[Hc|[]]];
        [now apply Hd|discriminate].
  - split; [|split; assumption].
    intros c [Hc|Hc]; apply Hq; [left; now right|].
    apply in_app_or in Hc as [Hc|[<-|[]]]; [now right|left; now left].
  - split; [|split; [|assumption]].
    + intros c [Hc|Hc]; apply Hq; [now left|right].
      eapply remove_nth_In; eassumption.
    + intros c Hc. apply in_app_or in Hc as [Hc|[Hc|[]]]; [now apply Hd|].
      apply attempt_some in Hc as [-> Hok]. split; [|exact Hok].
      apply Hq. right. eapply nth_error_In; eassumption.
    - split; [|split; [|discriminate]].
    + intros c [Hc|Hc]; apply Hq; [left|now right].
      destruct cancel_futures; [destruct Hc|assumption].
    + intros c Hc. apply Hd. eapply remove_nth_In; eassumption.
  - split; [assumption|split; [|discriminate]].
    intros c Hc. apply Hd. eapply remove_nth_In; eassumption.
  - split; [assumption|split].
    + intros c Hc. apply Hd. eapply remove_nth_In; eassumption.
    + intros r0 E. injection E as <-. apply Hd.
      eapply nth_error_In; eassumption.
  - split; [assumption|split; [|discriminate]].
    intros c Hc. apply Hd. eapply remove_nth_In; eassumption.
  - split; [assumption|split; [assumption|discriminate]].
Qed.

Lemma exec_results_sound : forall self g batch r,
  status (execM (submit_all self g batch)) = Returned r ->
  In r batch /\ ftp_login (fst r) (snd r) = LoginOk.
Proof.
  intros self g batch r.
  assert (Hinv : results_sound batch (execM (submit_all self g batch))).
  { apply (run_invariant ftp_login sched cancel_futures max_workers
             (results_sound batch)).
    - intros s1 s2 H1 H2. eapply results_sound_step; eassumption.
    - split; [|split]; cbn.
      + intros c [Hc|[]]. exact Hc.
      + intros c [].
      + discriminate. }
  apply Hinv.
Qed.

(** *** At least one pair is accepted *)

Definition some_valid (s : pool) : Prop :=
  (forall f, In f (completed s) -> exists r, f = Ret r) /\
  ((status s = Iterating /\ found (shared s) = false /\
    exists x, ftp_login (fst x) (snd x) = LoginOk /\
              (In x (pending s) \/ In x (running s) \/
               In (Ret (Some x)) (completed s)))
   \/
   (exists r, status s = Returned r /\ found (shared s) = true /\
              result (shared s) = Some r)).

Lemma some_valid_step : forall s s',
  some_valid s -> stepM s s' -> some_valid s'.
Proof.
  intros s s' (Hd & Hst) Hstep.
  destruct Hstep; unfold some_valid;
    cbn [pending running completed status shared] in *.
  - split.
    + intros f Hf. apply in_app_or in Hf as [Hf|[<-|[]]];
        [now apply Hd|now exists None].
    + destruct Hst as [(_ & F & _)|Hst]; [congruence|now right].
  - split; [assumption|].
    destruct Hst as [(S1 & F & x & Hx & [[Hxe|Hin]|[Hin|Hin]])|(r0 & _ & F & _)];
      try congruence; left; repeat split; trivial; exists x; split; trivial.
    + right; left. apply in_or_app. right. now left.
    + now left.
    + right; left. apply in_or_app. now left.
    + now (right; right).
  - split.
    + intros f Hf. apply in_app_or in Hf as [Hf|[<-|[]]]; [now apply Hd|].
      unfold attempt, ftp_exchange. destruct (ftp_login u p); cbn; eauto.
    + destruct Hst as [(S1 & F & x & Hx & [Hp|[Hr|Hc]])|Hst]; [| | |now right];
        left; repeat split; trivial; exists x; split; trivial.
      * now left.
      * destruct (cred_eq_dec x (u, p)) as [->|Hne].
        -- right; right. apply in_or_app. right. left.
           now apply attempt_accepted.
        -- right; left. eapply remove_nth_keeps; eassumption.
      * right; right. apply in_or_app. now left.
  - destruct Hst as [(_ & F & _)|(r0 & S1 & _)]; congruence.
  - apply nth_error_In, Hd in H. destruct H. discriminate.
  - split.
    + intros f Hf. apply Hd. eapply remove_nth_In; eassumption.
    + right. exists x. now repeat split.
  - split.
    + intros f Hf. apply Hd. eapply remove_nth_In; eassumption.
    + destruct Hst as [(S1 & F & x & Hx & [Hp|[Hr|Hc]])|(r0 & S1 & _)];
        [| | |discriminate];
        left; repeat split; trivial; exists x; split; trivial.
      * now left.
      * right; now left.
      * right; right.
        eapply remove_nth_keeps; [eassumption|assumption|discriminate].
  - split; [intros f []|].
    destruct Hst as [(_ & _ & x & _ & [[]|[[]|[]]])|(r0 & S1 & _)].
    discriminate.
Qed.

(** A batch that holds an accepted pair: the loop is left by
    [return result], with an accepted pair of the batch. *)
Lemma exec_some_valid : forall self g batch x,
  (1 <= max_workers)%Z ->
  In x batch ->
  ftp_login (fst x) (snd x) = LoginOk ->
  found self = false ->
  let s := execM (submit_all self g batch) in
  exists r, status s = Returned r /\ found (shared s) = true /\
            result (shared s) = Some r /\
            In r batch /\ ftp_login (fst r) (snd r) = LoginOk.
Proof.
  intros self g batch x Hw Hin Hx F s.
  assert (Hinv : some_valid s).
  { apply (run_invariant ftp_login sched cancel_futures max_workers some_valid).
    - intros s1 s2 H1 H2. eapply some_valid_step; eassumption.
    - split; cbn; [intros f []|].
      left. repeat split; trivial. exists x. split; trivial. now left. }
  destruct (quiescent_done max_workers s Hw (exec_quiescent _ _ _ _ _))
    as (_ & _ & Hs).
  destruct Hinv as (_ & [(S1 & _)|(r & S1 & F1 & R1)]); [contradiction|].
  exists r. repeat split; trivial; now apply (exec_results_sound self g batch r).
Qed.

End MoreInvariants.

Section FlagAndOrder.

Variable ftp_login : string -> string -> ftp_reply.
Variable sched : nat -> nat.
Variable cancel_futures : bool.
Variable max_workers : Z.

Local Abbreviation stepF := (step ftp_login cancel_futures).
Local Abbreviation execF :=
  (exec ftp_login sched max_workers cancel_futures).
Local Abbreviation runF :=
  (run ftp_login sched max_workers cancel_futures).

(** *** The flag is set when the search starts *)

Definition stale (self0 : forcer) (log : list (string * string)) (s : pool)
    : Prop :=
  found self0 = true /\ shared s = self0 /\ attempted (trace s) = log /\
  running s = [] /\
  (status s = Iterating \/ status s = Broke \/ status s = Exhausted).

Lemma stale_step : forall self0 log s s',
  stale self0 log s -> stepF s s' -> stale self0 log s'.
Proof.
  intros self0 log s s' (F & Hself & Hlog & Hrun & Hst) Hstep.
  destruct Hstep; unfold stale;
    cbn [shared trace attempted tock running status] in *;
    subst self0; try congruence.
  - repeat split; trivial.
  - subst r. destruct k; discriminate.
  - repeat split; trivial. right; now left.
  - repeat split; trivial. right; now right.
Qed.

Lemma exec_stale : forall self g batch,
  found self = true ->
  let s := execF (submit_all self g batch) in
  after_loop s = Ret None /\ shared s = self /\
  attempted (trace s) = attempted g.
Proof.
  intros self g batch F s.
  assert (Hinv : stale self (attempted g) s).
  { apply (run_invariant ftp_login sched cancel_futures max_workers
             (stale self (attempted g))).
    - intros s1 s2 H1 H2. eapply stale_step; eassumption.
    - repeat split; trivial. now left. }
  destruct Hinv as (_ & Hself & Hlog & _ & Hst).
  repeat split; trivial. unfold after_loop.
  destruct Hst as [->|[->| ->]]; reflexivity.
Qed.

(** *** No more than [max_workers] tasks run at a time *)

Lemma apply_running_bound : forall e s,
  In e (enabled max_workers s) ->
  (Z.of_nat (List.length (running s)) <= max_workers)%Z ->
  (Z.of_nat (List.length (running (apply ftp_login cancel_futures e s)))
   <= max_workers)%Z.
Proof.
  intros e [self q r d st g] H Hb. unfold enabled in H.
  cbn [pending running completed status] in *.
  apply in_app_or in H as [H|H]; [|apply in_app_or in H as [H|H]].
  - destruct q as [|[u p] q]; [contradiction|].
    destruct (Z.ltb_spec (Z.of_nat (List.length r)) max_workers);
      [|contradiction].
    destruct H as [<-|[]]. cbn. destruct (found self); cbn; trivial.
    rewrite length_app. cbn. lia.
  - apply in_map_iff in H as (k & <- & _). cbn.
    destruct (nth_error r k) as [[u p]|] eqn:Hr; cbn; trivial.
    apply remove_nth_length in Hr. lia.
  - destruct st; try contradiction.
    destruct d as [|f d].
    + destruct q; [|contradiction]. destruct r; [|contradiction].
      destruct H as [<-|[]]. cbn. exact Hb.
    + apply in_map_iff in H as (k & <- & _). unfold apply.
      cbn [completed shared pending running trace].
      destruct (nth_error (f :: d) k) as [[[x|]|e]|]; cbn; trivial;
        destruct (found self); cbn; trivial.
Qed.

Lemma run_running_bound : forall fuel s,
  (Z.of_nat (List.length (running s)) <= max_workers)%Z ->
  (Z.of_nat (List.length (running (runF fuel s))) <= max_workers)%Z.
Proof.
  intros fuel. induction fuel as [|fuel IH]; intros s Hb; cbn [run].
  - exact Hb.
  - destruct (pick sched max_workers s) as [e|] eqn:E; [|exact Hb].
    apply IH. cbn [tick running].
    apply apply_running_bound; [|exact Hb]. now apply (pick_enabled sched).
Qed.

End FlagAndOrder.

Lemma pool_built : forall max_workers u,
  ThreadPoolExecutor max_workers = Ret u -> (1 <= max_workers)%Z.
Proof.
  intros mw u H. unfold ThreadPoolExecutor in H.
  destruct (Z.leb_spec mw 0); [discriminate|lia].
Qed.

Section MoreBatches.

Variable ftp_login : string -> string -> ftp_reply.
Variable sched : nat -> nat.
Variable combinations : list (string * string).
Variable batch_size max_workers : Z.

Local Abbreviation loopB := (hybrid_batches ftp_login sched).

(** The test of [ftp_login] as a boolean, to search a batch with. *)
Definition accepts (c : string * string) : bool :=
  match ftp_login (fst c) (snd c) with LoginOk => true | Raises _ => false end.

Lemma accepts_true : forall c,
  accepts c = true <-> ftp_login (fst c) (snd c) = LoginOk.
Proof.
  intros c. unfold accepts. destruct (ftp_login (fst c) (snd c)); split;
    trivial; discriminate.
Qed.

Lemma hybrid_batches_found : forall indices self g,
  found self = true ->
  loopB indices combinations batch_size max_workers self g
  = (Ret None, self, g).
Proof.
  intros [|i later] self g F; cbn [hybrid_batches]; [reflexivity|].
  now rewrite F.
Qed.

Lemma hybrid_batches_sound : forall indices self g r,
  fst (fst (loopB indices combinations batch_size max_workers self g))
  = Ret (Some r) ->
  In r (concat (batches_of combinations batch_size indices)) /\
  ftp_login (fst r) (snd r) = LoginOk /\
  result (snd (fst (loopB indices combinations batch_size max_workers self g)))
  = Some r.
Proof.
  intros indices.
  induction indices as [|i later IH]; intros self g r; cbn [hybrid_batches].
  - discriminate.
  - destruct (found self); [discriminate|].
    destruct (ThreadPoolExecutor max_workers); [|discriminate].
    cbv zeta. cbn [batches_of map concat].
    set (batch := py_slice combinations i (i + batch_size)).
    set (s := exec ftp_login sched max_workers false
                (submit_all self (pool_created g) batch)).
    assert (Hlater : forall R : outcome (option cred) * forcer * ghost,
              (fst (fst R) = Ret (Some r) ->
               In r (concat (batches_of combinations batch_size later)) /\
               ftp_login (fst r) (snd r) = LoginOk /\
               result (snd (fst R)) = Some r) ->
              fst (fst R) = Ret (Some r) ->
              In r (batch ++ concat (batches_of combinations batch_size later)) /\
              ftp_login (fst r) (snd r) = LoginOk /\
              result (snd (fst R)) = Some r).
    { intros R HR E. destruct (HR E) as (H1 & H2 & H3).
      repeat split; trivial. apply in_or_app. now right. }
    destruct (status s) eqn:S1; try (apply Hlater, IH); try discriminate.
    cbn [fst snd]. intros E. injection E as <-.
    destruct (exec_results_sound ftp_login sched false max_workers
                self (pool_created g) batch r0 S1) as [Hin Hok].
    repeat split; trivial.
    + apply in_or_app. now left.
    + assert (Hrec : returned_recorded s).
      { apply (run_invariant ftp_login sched false max_workers
                 returned_recorded).
        - intros s1 s2 H1 H2.
          eapply returned_recorded_step; eassumption.
        - intros r1 E. discriminate E. }
      now apply Hrec.
Qed.

Lemma hybrid_batches_some_valid :
  (1 <= max_workers)%Z ->
  forall indices self g x,
  found self = false ->
  In x (concat (batches_of combinations batch_size indices)) ->
  ftp_login (fst x) (snd x) = LoginOk ->
  exists r,
    fst (fst (loopB indices combinations batch_size max_workers self g))
    = Ret (Some r).
Proof.
  intros Hw indices.
  induction indices as [|i later IH]; intros self g x F Hin Hx.
  - destruct Hin.
  - cbn [hybrid_batches]. rewrite F, (pool_needs_worker _ Hw). cbv zeta.
    cbn [batches_of map concat] in Hin.
    set (batch := py_slice combinations i (i + batch_size)) in *.
    destruct (existsb accepts batch) eqn:Hany.
    + apply existsb_exists in Hany as (y & Hy & Hok).
      apply accepts_true in Hok.
      destruct (exec_some_valid ftp_login sched false max_workers self
                  (pool_created g) batch y Hw Hy Hok F) as (r & S1 & _).
      rewrite S1. now exists r.
    + assert (Hnone : forall c, In c batch ->
                                ftp_login (fst c) (snd c) <> LoginOk).
      { intros c Hc Hok. apply accepts_true in Hok.
        assert (existsb accepts batch = true)
          by (apply existsb_exists; now exists c).
        congruence. }
      destruct (exec_none_valid ftp_login sched false max_workers self
                  (pool_created g) batch Hw Hnone F) as (S1 & E1 & _).
      rewrite S1, E1. apply (IH _ _ x); trivial.
      apply in_app_or in Hin as [Hin|Hin]; [|assumption].
      now apply Hnone in Hin.
Qed.

(** With no accepted pair one executor is built for each value of [i]. *)
Lemma hybrid_batches_pools :
  (1 <= max_workers)%Z ->
  forall indices self g,
  found self = false ->
  (forall c, In c (concat (batches_of combinations batch_size indices)) ->
             ftp_login (fst c) (snd c) <> LoginOk) ->
  pools (snd (loopB indices combinations batch_size max_workers self g))
  = (pools g + List.length indices)%nat.
Proof.
  intros Hw indices.
  induction indices as [|i later IH]; intros self g F Hnone.
  - cbn. lia.
  - cbn [hybrid_batches]. rewrite F, (pool_needs_worker _ Hw). cbv zeta.
    cbn [batches_of map concat] in Hnone.
    set (batch := py_slice combinations i (i + batch_size)) in *.
    destruct (exec_none_valid ftp_login sched false max_workers self
                (pool_created g) batch Hw) as (S1 & E1 & _); trivial.
    { intros c Hc. apply Hnone, in_or_app. now left. }
    destruct (exec_log_within ftp_login sched false max_workers self g batch)
      as (Hp & _).
    rewrite S1, E1. rewrite IH; trivial.
    + rewrite Hp. cbn [List.length]. lia.
    + intros c Hc. apply Hnone, in_or_app. now right.
Qed.

End MoreBatches.

Lemma batches_prefix : forall combinations batch_size indices,
  py_range (Z.of_nat (List.length combinations)) batch_size = Ret indices ->
  exists rest,
    combinations
    = concat (batches_of combinations batch_size indices) ++ rest.
Proof.
  intros l bs indices Hrange.
  destruct (Z.lt_ge_cases bs 1) as [Hlow|Hpos].
  - exists l. destruct (Z.eq_dec bs 0) as [->|Hne].
    + discriminate Hrange.
    + rewrite py_range_nothing in Hrange by lia.
      injection Hrange as <-. reflexivity.
  - exists []. destruct (batches_cover l bs) as (indices' & Hrange' & Hcover);
      [lia|].
    rewrite Hrange in Hrange'. injection Hrange' as <-.
    now rewrite Hcover, app_nil_r.
Qed.

Lemma exec_returned_recorded :
  forall ftp_login sched max_workers cancel_futures self g batch r,
  status (exec ftp_login sched max_workers cancel_futures
            (submit_all self g batch)) = Returned r ->
  found (shared (exec ftp_login sched max_workers cancel_futures
                   (submit_all self g batch))) = true /\
  result (shared (exec ftp_login sched max_workers cancel_futures
                    (submit_all self g batch))) = Some r.
Proof.
  intros ftp_login sched mw c self g batch r.
  assert (Hrec : returned_recorded
                   (exec ftp_login sched mw c (submit_all self g batch))).
  { apply (run_invariant ftp_login sched c mw returned_recorded).
    - intros s1 s2 H1 H2. eapply returned_recorded_step; eassumption.
    - intros r1 E. discriminate E. }
  apply Hrec.
Qed.

(** X1.  A pair [brute_force_cpu] returns is a pair of the cross product
    that the target accepted, and it is the pair recorded in the object,
    whose flag is set: under every schedule, whatever the number of
    accepted pairs. *)
Theorem brute_force_cpu_sound :
  forall ftp_login sched self g us ps max_workers r,
  fst (fst (brute_force_cpu ftp_login sched self g us ps max_workers))
  = Ret (Some r) ->
  In r (product us ps) /\
  ftp_login (fst r) (snd r) = LoginOk /\
  found (snd (fst (brute_force_cpu ftp_login sched self g us ps max_workers)))
  = true /\
  result (snd (fst (brute_force_cpu ftp_login sched self g us ps max_workers)))
  = Some r.
Proof.
  intros ftp_login sched self g us ps mw r. unfold brute_force_cpu.
  destruct (ThreadPoolExecutor mw); [|discriminate].
  cbv zeta. cbn [fst snd]. unfold after_loop.
  destruct (status _) eqn:S1; try discriminate.
  intros E. injection E as <-.
  destruct (exec_results_sound _ _ _ _ _ _ _ _ S1) as [Hin Hok].
  destruct (exec_returned_recorded _ _ _ _ _ _ _ _ S1) as [F R].
  now repeat split.
Qed.

Lemma brute_force_cpu_sound_witness :
  In ("admin", "admin") (product ["admin"; "root"] ["admin"; "root"]) /\
  always_accepts "admin" "admin" = LoginOk.
Proof.
  destruct (brute_force_cpu_sound always_accepts first_enabled
              (init "target" 21 5) ghost0 ["admin"; "root"] ["admin"; "root"]
              2 ("admin", "admin")) as (Hin & Hok & _).
  - reflexivity.
  - now split.
Defined.

(** X2.  A pair [brute_force_hybrid] returns is a pair of its combination
    list that the target accepted, and it is the pair recorded in the
    object: under every schedule, for every [batch_size] and
    [max_workers], with or without the GPU path. *)
Theorem brute_force_hybrid_sound :
  forall ftp_login sched gpu cupy self g us ps batch_size max_workers r,
  fst (fst (brute_force_hybrid ftp_login sched gpu cupy self g us ps
                               batch_size max_workers))
  = Ret (Some r) ->
  In r (hybrid_combinations gpu cupy self us ps) /\
  ftp_login (fst r) (snd r) = LoginOk /\
  result (snd (fst (brute_force_hybrid ftp_login sched gpu cupy self g us ps
                                       batch_size max_workers)))
  = Some r.
Proof.
  intros ftp_login sched gpu cupy self g us ps bs mw r.
  unfold brute_force_hybrid. cbv zeta.
  destruct (py_range _ bs) as [indices|e] eqn:Hrange; [|discriminate].
  intros E. apply hybrid_batches_sound in E as (Hin & Hok & Hres).
  repeat split; trivial.
  destruct (batches_prefix _ _ _ Hrange) as (rest & ->).
  apply in_or_app. now left.
Qed.

Lemma brute_force_hybrid_sound_witness :
  In ("root", "admin")
     (hybrid_combinations false no_cupy (init "target" 21 5)
        ["admin"; "root"] ["admin"; "root"]) /\
  always_accepts "root" "admin" = LoginOk.
Proof.
  destruct (brute_force_hybrid_sound always_accepts round_robin false no_cupy
              (init "target" 21 5) ghost0 ["admin"; "root"] ["admin"; "root"]
              3 2 ("root", "admin")) as (Hin & Hok & _).
  - reflexivity.
  - now split.
Defined.

(** X3.  If the target accepts at least one pair of the cross product,
    [brute_force_cpu] called with [max_workers >= 1] on an object whose flag
    is not set never comes back empty-handed: under every schedule it
    returns an accepted pair of the cross product. *)
Theorem brute_force_cpu_finds_some :
  forall ftp_login sched self g us ps max_workers x,
  found self = false ->
  (1 <= max_workers)%Z ->
  In x (product us ps) ->
  ftp_login (fst x) (snd x) = LoginOk ->
  exists r,
    fst (fst (brute_force_cpu ftp_login sched self g us ps max_workers))
    = Ret (Some r) /\
    In r (product us ps) /\ ftp_login (fst r) (snd r) = LoginOk.
Proof.
  intros ftp_login sched self g us ps mw x F Hw Hin Hx.
  unfold brute_force_cpu. rewrite (pool_needs_worker _ Hw). cbv zeta.
  destruct (exec_some_valid ftp_login sched true mw self (pool_created g)
              (product us ps) x Hw Hin Hx F) as (r & S1 & _ & _ & Hr & Hok).
  exists r. cbn [fst]. unfold after_loop. rewrite S1. now repeat split.
Qed.

Lemma brute_force_cpu_finds_some_witness :
  exists r,
    fst (fst (brute_force_cpu always_accepts round_robin (init "target" 21 5)
                ghost0 ["admin"; "root"] ["admin"; "root"] 3))
    = Ret (Some r) /\
    In r (product ["admin"; "root"] ["admin"; "root"]).
Proof.
  destruct (brute_force_cpu_finds_some always_accepts round_robin
              (init "target" 21 5) ghost0 ["admin"; "root"] ["admin"; "root"]
              3 ("root", "admin")) as (r & Hr & Hin & _).
  - reflexivity.
  - lia.
  - vm_compute. tauto.
  - reflexivity.
  - exists r. now split.
Defined.

(** X4.  If the target accepts at least one pair of the combination list of
    [brute_force_hybrid], the search called with [max_workers >= 1] and
    [batch_size >= 1] on an object whose flag is not set returns an
    accepted pair of that list, under every schedule. *)
Theorem brute_force_hybrid_finds_some :
  forall ftp_login sched gpu cupy self g us ps batch_size max_workers x,
  found self = false ->
  (1 <= max_workers)%Z ->
  (1 <= batch_size)%Z ->
  In x (hybrid_combinations gpu cupy self us ps) ->
  ftp_login (fst x) (snd x) = LoginOk ->
  exists r,
    fst (fst (brute_force_hybrid ftp_login sched gpu cupy self g us ps
                                 batch_size max_workers))
    = Ret (Some r) /\
    In r (hybrid_combinations gpu cupy self us ps) /\
    ftp_login (fst r) (snd r) = LoginOk.
Proof.
  intros ftp_login sched gpu cupy self g us ps bs mw x F Hw Hbs Hin Hx.
  destruct (brute_force_hybrid_batches ftp_login sched gpu cupy self g us ps
              bs mw Hbs) as (indices & Hcover & ->).
  destruct (hybrid_batches_some_valid ftp_login sched
              (hybrid_combinations gpu cupy self us ps) bs mw Hw
              indices self g x F) as (r & Hr); trivial.
  { now rewrite Hcover. }
  exists r. split; [exact Hr|].
  apply hybrid_batches_sound in Hr as (Hrin & Hok & _).
  rewrite Hcover in Hrin. now split.
Qed.

Lemma brute_force_hybrid_finds_some_witness :
  exists r,
    fst (fst (brute_force_hybrid always_accepts round_robin false no_cupy
                (init "target" 21 5) ghost0 ["admin"; "root"]
                ["admin"; "root"] 3 2))
    = Ret (Some r) /\
    always_accepts (fst r) (snd r) = LoginOk.
Proof.
  destruct (brute_force_hybrid_finds_some always_accepts round_robin false
              no_cupy (init "target" 21 5) ghost0 ["admin"; "root"]
              ["admin"; "root"] 3 2 ("root", "root")) as (r & Hr & _ & Hok).
  - reflexivity.
  - lia.
  - lia.
  - vm_compute. tauto.
  - reflexivity.
  - exists r. now split.
Defined.

(** X5.  An object whose flag is already set, as after a successful search,
    finds nothing more: [brute_force_cpu] (with [max_workers >= 1]) returns
    [None] without opening any exchange, [brute_force_hybrid] (with
    [batch_size] other than zero) returns [None] at once, without building
    an executor; both leave the object as it was, whatever the target
    accepts. *)
Theorem stale_flag_blocks_search :
  forall ftp_login sched gpu cupy self g us ps batch_size max_workers,
  found self = true ->
  ((1 <= max_workers)%Z ->
   exists g',
     brute_force_cpu ftp_login sched self g us ps max_workers
     = (Ret None, self, g') /\
     attempted g' = attempted g) /\
  (batch_size <> 0%Z ->
   brute_force_hybrid ftp_login sched gpu cupy self g us ps
                      batch_size max_workers
   = (Ret None, self, g)).
Proof.
  intros ftp_login sched gpu cupy self g us ps bs mw F. split.
  - intros Hw. unfold brute_force_cpu. rewrite (pool_needs_worker _ Hw).
    cbv zeta.
    destruct (exec_stale ftp_login sched true mw self (pool_created g)
                (product us ps) F) as (Hout & Hself & Hlog).
    eexists. split; [|exact Hlog]. now rewrite Hout, Hself.
  - intros Hbs. unfold brute_force_hybrid, py_range. cbv zeta.
    destruct (Z.eqb_spec bs 0) as [E|_]; [contradiction|].
    now apply hybrid_batches_found.
Qed.

Lemma stale_flag_blocks_search_witness :
  (exists g',
     brute_force_cpu always_accepts round_robin
       (record_success (init "target" 21 5) ("root", "root")) ghost0
       ["admin"] ["admin"] 2
     = (Ret None, record_success (init "target" 21 5) ("root", "root"), g') /\
     attempted g' = []) /\
  brute_force_hybrid always_accepts round_robin false no_cupy
    (record_success (init "target" 21 5) ("root", "root")) ghost0
    ["admin"] ["admin"] 1000 2
  = (Ret None, record_success (init "target" 21 5) ("root", "root"), ghost0).
Proof.
  destruct (stale_flag_blocks_search always_accepts round_robin false no_cupy
              (record_success (init "target" 21 5) ("root", "root")) ghost0
              ["admin"] ["admin"] 1000 2 eq_refl) as [Hcpu Hhybrid].
  split; [apply Hcpu; lia|apply Hhybrid; discriminate].
Defined.

(** X6.  [brute_force_hybrid] does not check [batch_size].  With
    [batch_size = 0] it raises the [ValueError] of [range] before any
    executor is built; with a negative [batch_size] the range is empty and
    it returns [None] without a single attempt, whatever the target
    accepts. *)
Theorem hybrid_bad_batch_size :
  forall ftp_login sched gpu cupy self g us ps batch_size max_workers,
  (batch_size <= 0)%Z ->
  brute_force_hybrid ftp_login sched gpu cupy self g us ps
                     batch_size max_workers
  = (if (batch_size =? 0)%Z
     then Exc (ValueError "range() arg 3 must not be zero")
     else Ret None,
     self, g).
Proof.
  intros ftp_login sched gpu cupy self g us ps bs mw Hbs.
  unfold brute_force_hybrid. cbv zeta.
  destruct (Z.eqb_spec bs 0) as [->|Hne]; [reflexivity|].
  rewrite py_range_nothing by lia. reflexivity.
Qed.

Lemma hybrid_bad_batch_size_witness :
  brute_force_hybrid always_accepts round_robin false no_cupy
    (init "target" 21 5) ghost0 ["admin"] ["admin"] (-1) 2
  = (Ret None, init "target" 21 5, ghost0).
Proof.
  apply (hybrid_bad_batch_size always_accepts round_robin false no_cupy
           (init "target" 21 5) ghost0 ["admin"] ["admin"] (-1) 2).
  lia.
Defined.

(** For [batch_size >= 1] the values of [range(0, total, batch_size)]
    number [ceil(total / batch_size)], and every slice
    [combinations[i:i+batch_size]] taken at one of them holds at least one
    pair and at most [batch_size]. *)
Lemma hybrid_batches_shape :
  forall (combinations : list (string * string)) batch_size,
  (1 <= batch_size)%Z ->
  exists indices,
    py_range (Z.of_nat (List.length combinations)) batch_size = Ret indices /\
    Z.of_nat (List.length indices)
    = ((Z.of_nat (List.length combinations) + batch_size - 1) / batch_size)%Z /\
    forall batch, In batch (batches_of combinations batch_size indices) ->
      (1 <= Z.of_nat (List.length batch) <= batch_size)%Z.
Proof.
  intros l bs Hbs. unfold py_range.
  destruct (Z.eqb_spec bs 0) as [E|_]; [lia|].
  destruct (Z.ltb_spec 0 bs) as [_|E]; [|lia].
  eexists. split; [reflexivity|].
  set (len := Z.of_nat (List.length l)).
  assert (Hq : (0 <= (len + bs - 1) / bs)%Z) by (apply Z.div_pos; lia).
  pose proof (Z.mul_div_le (len + bs - 1) bs ltac:(lia)) as Hle.
  split.
  - rewrite length_map, length_seq. lia.
  - intros batch Hb. unfold batches_of in Hb. rewrite map_map in Hb.
    apply in_map_iff in Hb as (k & <- & Hk). apply in_seq in Hk.
    assert (Hchunk : py_slice l (Z.of_nat k * bs) (Z.of_nat k * bs + bs)
                     = firstn (Z.to_nat bs) (skipn (k * Z.to_nat bs) l)).
    { rewrite <- (py_slice_chunk _ l k (Z.to_nat bs)) by lia.
      now rewrite Z2Nat.id by lia. }
    rewrite Hchunk, length_firstn, length_skipn.
    assert (Hin : (Z.of_nat k * bs < len)%Z) by nia.
    assert (Hnat : (k * Z.to_nat bs < List.length l)%nat) by (unfold len in Hin; nia).
    lia.
Qed.

(** X10.  In a search that finds no accepted pair, [brute_force_hybrid]
    builds one executor for each batch, [ceil(total / batch_size)] in
    all. *)
Theorem hybrid_pool_per_batch :
  forall ftp_login sched gpu cupy self g us ps batch_size max_workers,
  found self = false ->
  (1 <= max_workers)%Z ->
  (1 <= batch_size)%Z ->
  (forall c, In c (hybrid_combinations gpu cupy self us ps) ->
             ftp_login (fst c) (snd c) <> LoginOk) ->
  Z.of_nat (pools (snd (brute_force_hybrid ftp_login sched gpu cupy self g
                          us ps batch_size max_workers)))
  = (Z.of_nat (pools g)
     + (Z.of_nat (List.length (hybrid_combinations gpu cupy self us ps))
        + batch_size - 1) / batch_size)%Z.
Proof.
  intros ftp_login sched gpu cupy self g us ps bs mw F Hw Hbs Hnone.
  destruct (hybrid_batches_shape (hybrid_combinations gpu cupy self us ps)
              bs Hbs) as (indices & Hrange & Hn & _).
  destruct (batches_cover (hybrid_combinations gpu cupy self us ps) bs Hbs)
    as (indices' & Hrange' & Hcover).
  rewrite Hrange in Hrange'. injection Hrange' as <-.
  unfold brute_force_hybrid. cbv zeta. rewrite Hrange.
  rewrite hybrid_batches_pools; trivial.
  - lia.
  - now rewrite Hcover.
Qed.

Lemma hybrid_pool_per_batch_witness :
  pools (snd (brute_force_hybrid always_fails round_robin false no_cupy
                (init "target" 21 5) ghost0 ["admin"; "root"]
                ["1234"; "admin"] 3 2))
  = 2%nat.
Proof.
  pose proof (hybrid_pool_per_batch always_fails round_robin false no_cupy
                (init "target" 21 5) ghost0 ["admin"; "root"]
                ["1234"; "admin"] 3 2 eq_refl) as H.
  cbn [ghost0 pools] in H.
  assert (E : (Z.of_nat 0
               + (Z.of_nat (List.length
                    (hybrid_combinations false no_cupy (init "target" 21 5)
                       ["admin"; "root"] ["1234"; "admin"])) + 3 - 1) / 3
               = 2)%Z) by reflexivity.
  rewrite E in H. apply Nat2Z.inj. apply H; try lia.
  intros c _. discriminate.
Defined.

(** X11.  An executor never runs more tasks at a time than [max_workers]:
    in every state reached after the batch is submitted, the number of
    tasks inside the FTP exchange is at most [max_workers]. *)
Theorem running_within_max_workers :
  forall ftp_login sched max_workers cancel_futures fuel self g batch,
  (0 <= max_workers)%Z ->
  (Z.of_nat (List.length
     (running (run ftp_login sched max_workers cancel_futures fuel
                 (submit_all self g batch))))
   <= max_workers)%Z.
Proof.
  intros ftp_login sched mw c fuel self g batch Hw.
  apply run_running_bound. cbn. exact Hw.
Qed.

Lemma running_within_max_workers_witness :
  (List.length
     (running (run always_fails first_enabled 2 true 3
                 (submit_all (init "target" 21 5) ghost0
                    (product ["admin"; "root"] ["1234"; "admin"]))))
   <= 2)%nat.
Proof.
  pose proof (running_within_max_workers always_fails first_enabled 2 true 3
                (init "target" 21 5) ghost0
                (product ["admin"; "root"] ["1234"; "admin"])) as H.
  apply Nat2Z.inj_le. apply H. lia.
Defined.

(** * Further properties of the combination builders *)

(** X12.  For every cap, zero and negative ones included,
    [generate_combinations_cpu] returns the username-major cross product
    cut after [max 1 max_combinations] pairs: nothing for an empty
    wordlist, the first pair alone for a cap below one. *)
Theorem generate_combinations_cpu_cut_product : forall self us ps cap,
  generate_combinations_cpu self us ps cap
  = firstn (Z.to_nat (Z.max 1 cap)) (product us ps).
Proof.
  intros self us ps cap. apply generate_combinations_cpu_firstn.
Qed.

(** X13.  For a cap of at least one [generate_combinations_cpu] returns
    [min (|usernames| * |passwords|) max_combinations] pairs, each made of a
    username and a password of the inputs, and no pair occurs in the output
    more often than in the cross product. *)
Theorem generate_combinations_cpu_pairs : forall self us ps cap,
  (1 <= cap)%Z ->
  Z.of_nat (List.length (generate_combinations_cpu self us ps cap))
  = Z.min (Z.of_nat (List.length us) * Z.of_nat (List.length ps)) cap /\
  (forall u p, In (u, p) (generate_combinations_cpu self us ps cap) ->
               In u us /\ In p ps) /\
  (forall c,
     (count_occ cred_eq_dec (generate_combinations_cpu self us ps cap) c
      <= count_occ cred_eq_dec (product us ps) c)%nat).
Proof.
  intros self us ps cap Hcap. split; [|split].
  - now apply generate_combinations_cpu_length.
  - intros u p H. rewrite generate_combinations_cpu_firstn in H.
    apply In_firstn in H. now apply in_prod_iff in H.
  - intros c. rewrite generate_combinations_cpu_firstn.
    rewrite <- (firstn_skipn (cap_length cap) (product us ps)) at 2.
    rewrite count_occ_app. lia.
Qed.

Lemma generate_combinations_cpu_pairs_witness :
  Z.of_nat (List.length
    (generate_combinations_cpu (init "target" 21 5)
       ["admin"; "root"] ["1234"; "admin"] 3))
  = 3%Z.
Proof.
  destruct (generate_combinations_cpu_pairs (init "target" 21 5)
              ["admin"; "root"] ["1234"; "admin"] 3) as (Hlen & _); [lia|].
  rewrite Hlen. reflexivity.
Defined.

(** X14.  Without the GPU path [generate_combinations_gpu] falls back on
    the CPU builder with its default cap: it returns the first 1,000,000
    pairs of the username-major cross product, the whole of it when it has
    no more pairs than that. *)
Theorem generate_combinations_gpu_fallback : forall cupy self us ps,
  generate_combinations_gpu false cupy self us ps
  = firstn (Z.to_nat 1000000) (product us ps) /\
  ((Z.of_nat (List.length us) * Z.of_nat (List.length ps) <= 1000000)%Z ->
   generate_combinations_gpu false cupy self us ps = product us ps).
Proof.
  intros cupy self us ps.
  assert (E : generate_combinations_gpu false cupy self us ps
              = firstn (Z.to_nat 1000000) (product us ps)).
  { unfold generate_combinations_gpu. cbn [negb].
    rewrite generate_combinations_cpu_firstn. now rewrite default_cap_length. }
  split; [exact E|].
  intros Hsmall. rewrite E. apply firstn_all2. rewrite product_length. lia.
Qed.

Lemma generate_combinations_gpu_fallback_witness :
  generate_combinations_gpu false no_cupy (init "target" 21 5)
    ["admin"; "root"] ["1234"; "admin"]
  = product ["admin"; "root"] ["1234"; "admin"].
Proof.
  apply (generate_combinations_gpu_fallback no_cupy (init "target" 21 5)
           ["admin"; "root"] ["1234"; "admin"]).
  cbn. lia.
Defined.

(** * The wordlists *)

From Stdlib Require Import Ascii DecimalString ListSet.

(** ** load_wordlist *)

Section Wordlist.

(** [str.isspace] on one character, and what opening [filepath] with
    [encoding='utf-8', errors='ignore'] and iterating over the file gives:
    its lines, each with its line ending, or the exception that [open] or a
    read raised. *)
Variable isspace : ascii -> bool.
Variable open_lines : string -> outcome (list string).

(** [str.lstrip], [str.rstrip] and [str.strip] without argument. *)
Fixpoint lstrip (s : string) : string :=
  match s with
  | EmptyString => EmptyString
  | String c rest => if isspace c then lstrip rest else s
  end.

Fixpoint rstrip (s : string) : string :=
  match s with
  | EmptyString => EmptyString
  | String c rest =>
      match rstrip rest with
      | EmptyString => if isspace c then EmptyString else String c EmptyString
      | String _ _ as kept => String c kept
      end
  end.

Definition strip (s : string) : string := rstrip (lstrip s).

(** The truth value of a [str]. *)
Definition nonempty (s : string) : bool := negb (String.eqb s "").

Definition load_wordlist (filepath : string) : list string :=
  match open_lines filepath with
  | Ret lines => map strip (filter (fun line => nonempty (strip line)) lines)
  | Exc _ => []
  end.

(** A line made of whitespace only. *)
Definition blank (line : string) : bool :=
  forallb isspace (list_ascii_of_string line).

Lemma lstrip_head : forall s c rest,
  lstrip s = String c rest -> isspace c = false.
Proof.
  intros s. induction s as [|a s IH]; intros c rest H; cbn in H.
  - discriminate.
  - destruct (isspace a) eqn:E; [now apply IH in H|].
    injection H as <- _. exact E.
Qed.

Lemma lstrip_fixed : forall c rest,
  isspace c = false -> lstrip (String c rest) = String c rest.
Proof. intros c rest H. cbn. now rewrite H. Qed.

Lemma lstrip_blank : forall s, lstrip s = EmptyString <-> blank s = true.
Proof.
  intros s. unfold blank. induction s as [|a s IH]; cbn.
  - tauto.
  - destruct (isspace a); cbn; [exact IH|]. split; discriminate.
Qed.

Lemma rstrip_cons : forall c rest,
  rstrip (String c rest)
  = match rstrip rest with
    | EmptyString => if isspace c then EmptyString else String c EmptyString
    | String _ _ as kept => String c kept
    end.
Proof. reflexivity. Qed.

Lemma rstrip_idem : forall s, rstrip (rstrip s) = rstrip s.
Proof.
  intros s. induction s as [|a s IH]; [reflexivity|].
  rewrite rstrip_cons. destruct (rstrip s) as [|b kept] eqn:E.
  - destruct (isspace a) eqn:Ea; [reflexivity|].
    rewrite rstrip_cons. cbn. now rewrite Ea.
  - rewrite rstrip_cons, IH. reflexivity.
Qed.

Lemma rstrip_head : forall c rest,
  isspace c = false -> exists kept, rstrip (String c rest) = String c kept.
Proof.
  intros c rest H. cbn. destruct (rstrip rest) as [|b kept].
  - rewrite H. now exists EmptyString.
  - now exists (String b kept).
Qed.

Lemma rstrip_length : forall s,
  (String.length (rstrip s) <= String.length s)%nat.
Proof.
  intros s. induction s as [|a s IH]; cbn; [lia|].
  destruct (rstrip s) as [|b kept].
  - destruct (isspace a); cbn; lia.
  - cbn in *. lia.
Qed.

Lemma rstrip_snoc_space : forall s c,
  isspace c = true ->
  rstrip (String.append s (String c EmptyString)) = rstrip s.
Proof.
  intros s c H. induction s as [|a s IH]; cbn.
  - now rewrite H.
  - now rewrite IH.
Qed.

Lemma append_length : forall s t,
  String.length (String.append s t) = (String.length s + String.length t)%nat.
Proof.
  intros s t. induction s as [|a s IH]; cbn; [reflexivity|]. now rewrite IH.
Qed.

Lemma rstrip_last : forall w s c,
  rstrip w = w -> w = String.append s (String c EmptyString) ->
  isspace c = false.
Proof.
  intros w s c Hfix ->. destruct (isspace c) eqn:E; [|reflexivity].
  rewrite rstrip_snoc_space in Hfix by assumption.
  pose proof (rstrip_length s) as Hlen. rewrite Hfix, append_length in Hlen.
  cbn in Hlen. lia.
Qed.

Lemma strip_cases : forall s,
  (strip s = EmptyString /\ blank s = true) \/
  (exists c kept, strip s = String c kept /\ isspace c = false /\
                  blank s = false).
Proof.
  intros s. unfold strip. destruct (lstrip s) as [|c rest] eqn:E.
  - left. split; [reflexivity|]. now apply lstrip_blank.
  - right. pose proof (lstrip_head _ _ _ E) as Hc.
    destruct (rstrip_head c rest Hc) as (kept & ->).
    exists c, kept. repeat split; trivial.
    destruct (blank s) eqn:B; [|reflexivity].
    apply lstrip_blank in B. congruence.
Qed.

Lemma strip_idem : forall s, strip (strip s) = strip s.
Proof.
  intros s. destruct (strip_cases s) as [[E _]|(c & kept & E & Hc & _)].
  - rewrite E. reflexivity.
  - unfold strip at 1. rewrite E, (lstrip_fixed _ _ Hc), <- E.
    unfold strip. apply rstrip_idem.
Qed.

Lemma strip_rstrip : forall s, rstrip (strip s) = strip s.
Proof. intros s. unfold strip. apply rstrip_idem. Qed.

Lemma nonempty_strip : forall s, nonempty (strip s) = negb (blank s).
Proof.
  intros s. unfold nonempty.
  destruct (strip_cases s) as [[E B]|(c & kept & E & _ & B)]; now rewrite E, B.
Qed.

End Wordlist.

(** The whitespace of ASCII, as [str.isspace] has it: tab to carriage
    return, the four separators, the space. *)
Definition ascii_isspace (c : ascii) : bool :=
  let n := nat_of_ascii c in
  ((9 <=? n) && (n <=? 13) || (28 <=? n) && (n <=? 32))%nat%bool.

Definition newline : ascii := "010"%char.

(** A file system holding one wordlist, ["users.txt"]. *)
Definition one_file (filepath : string) : outcome (list string) :=
  if String.eqb filepath "users.txt"
  then Ret [String.append "admin" (String newline EmptyString);
            String newline EmptyString;
            String.append "  root " (String newline EmptyString);
            "guest"]
  else Exc (other_fault "FileNotFoundError").

(** X15.  Every word [load_wordlist] returns is non-empty, begins and ends
    with a character that is not whitespace, is left unchanged by another
    [strip], and is the [strip] of a line of the file. *)
Theorem load_wordlist_words_stripped :
  forall isspace open_lines filepath w,
  In w (load_wordlist isspace open_lines filepath) ->
  w <> EmptyString /\
  strip isspace w = w /\
  (forall c rest, w = String c rest -> isspace c = false) /\
  (forall s c, w = String.append s (String c EmptyString) ->
               isspace c = false) /\
  exists lines line,
    open_lines filepath = Ret lines /\ In line lines /\
    w = strip isspace line.
Proof.
  intros isspace open_lines filepath w Hw. unfold load_wordlist in Hw.
  destruct (open_lines filepath) as [lines|e]; [|destruct Hw].
  apply in_map_iff in Hw as (line & <- & Hline).
  apply filter_In in Hline as [Hline Hne].
  split; [|split; [apply strip_idem|split; [|split]]].
  - intros E. rewrite E in Hne. discriminate.
  - intros c rest E.
    destruct (strip_cases isspace line) as [[E0 _]|(c0 & kept & E0 & Hc & _)];
      congruence.
  - intros s c E. eapply rstrip_last; [apply strip_rstrip|exact E].
  - exists lines, line. now repeat split.
Qed.

Lemma load_wordlist_words_stripped_witness :
  strip ascii_isspace "root" = "root".
Proof.
  destruct (load_wordlist_words_stripped ascii_isspace one_file "users.txt"
              "root") as (_ & Hfix & _).
  - vm_compute. tauto.
  - exact Hfix.
Defined.

(** X16.  [load_wordlist] keeps the order of the file and drops exactly the
    lines made of whitespace only: its result is the [strip] of every other
    line, in file order. *)
Theorem load_wordlist_drops_blank_lines :
  forall isspace open_lines filepath lines,
  open_lines filepath = Ret lines ->
  load_wordlist isspace open_lines filepath
  = map (strip isspace) (filter (fun line => negb (blank isspace line)) lines).
Proof.
  intros isspace open_lines filepath lines H. unfold load_wordlist.
  rewrite H. f_equal. apply filter_ext. intros line. apply nonempty_strip.
Qed.

Lemma load_wordlist_drops_blank_lines_witness :
  load_wordlist ascii_isspace one_file "users.txt"
  = ["admin"; "root"; "guest"].
Proof.
  rewrite (load_wordlist_drops_blank_lines ascii_isspace one_file "users.txt"
             [String.append "admin" (String newline EmptyString);
              String newline EmptyString;
              String.append "  root " (String newline EmptyString);
              "guest"]).
  - reflexivity.
  - reflexivity.
Defined.

(** X17.  A clean wordlist is loaded as it is: if every line of the file is
    a non-empty word without surrounding whitespace followed by a line
    ending that [isspace] holds of, [load_wordlist] returns those words, in
    order. *)
Theorem load_wordlist_clean_file :
  forall isspace open_lines filepath words ending,
  isspace ending = true ->
  open_lines filepath
  = Ret (map (fun w => String.append w (String ending EmptyString)) words) ->
  (forall w, In w words -> w <> EmptyString /\ strip isspace w = w) ->
  load_wordlist isspace open_lines filepath = words.
Proof.
  intros isspace open_lines filepath words ending Hend Hopen Hclean.
  unfold load_wordlist. rewrite Hopen. clear Hopen.
  induction words as [|w words IH]; [reflexivity|].
  assert (Hstrip : strip isspace (String.append w (String ending EmptyString))
                   = w).
  { destruct (Hclean w (or_introl eq_refl)) as [Hne Hfix].
    destruct (strip_cases isspace w) as [[E _]|(c & kept & E & Hc & _)];
      [congruence|].
    rewrite Hfix in E. subst w. unfold strip at 1. cbn [String.append].
    rewrite (lstrip_fixed _ _ _ Hc).
    change (String c (String.append kept (String ending EmptyString)))
      with (String.append (String c kept) (String ending EmptyString)).
    rewrite rstrip_snoc_space by assumption.
    rewrite <- Hfix. apply strip_rstrip. }
  cbn [map filter]. rewrite Hstrip.
  assert (Hne : nonempty w = true).
  { destruct (Hclean w (or_introl eq_refl)) as [Hne _]. unfold nonempty.
    destruct (String.eqb_spec w ""); [contradiction|reflexivity]. }
  rewrite Hne. cbn [map]. f_equal; [exact Hstrip|]. apply IH.
  intros w' Hw'. apply Hclean. now right.
Qed.

Lemma load_wordlist_clean_file_witness :
  load_wordlist ascii_isspace
    (fun _ => Ret [String.append "admin" (String newline EmptyString);
                   String.append "root" (String newline EmptyString)])
    "users.txt"
  = ["admin"; "root"].
Proof.
  apply (load_wordlist_clean_file ascii_isspace _ "users.txt"
           ["admin"; "root"] newline).
  - reflexivity.
  - reflexivity.
  - intros w [<-|[<-|[]]]; split; try discriminate; reflexivity.
Defined.

(** ** generate_simple_wordlist *)

(** [str(i)] and [format(i, '02d')] for a natural number. *)
Definition py_str (i : nat) : string :=
  NilEmpty.string_of_uint (Nat.to_uint i).

Definition py_02d (i : nat) : string :=
  if (i <? 10)%nat then String.append "0" (py_str i) else py_str i.

Section Generator.

(** [str.lower], [str.upper], [str.capitalize], and the order in which
    [list(wordlist)] takes the elements of the set, which Python leaves
    open. *)
Variable lower upper capitalize : string -> string.
Variable list_of_set : list string -> list string.

(** The set is a list without repetition; [wordlist.add(w)] is [set_add]. *)
Definition add_all (words : list string) (wordlist : set string)
    : set string :=
  fold_left (fun acc w => set_add string_dec w acc) words wordlist.

(** The body of [for i in range(10)]. *)
Definition add_numbered (word : string) (wordlist : set string) (i : nat)
    : set string :=
  let wordlist := set_add string_dec (String.append word (py_str i)) wordlist in
  let wordlist :=
    set_add string_dec
      (String.append word (String.append (py_str i) (py_str i))) wordlist in
  if (i <? 100)%nat
  then set_add string_dec (String.append word (py_02d i)) wordlist
  else wordlist.

(** The body of [for word in base_words]. *)
Definition add_variants (wordlist : set string) (word : string)
    : set string :=
  let wordlist := set_add string_dec (lower word) wordlist in
  let wordlist := set_add string_dec (upper word) wordlist in
  let wordlist := set_add string_dec (capitalize word) wordlist in
  fold_left (add_numbered word) (seq 0 10) wordlist.

Definition generate_simple_wordlist (base_words variations : list string)
    : list string :=
  let wordlist := add_all base_words (empty_set string) in
  let wordlist := fold_left add_variants base_words wordlist in
  let wordlist := add_all variations wordlist in
  list_of_set wordlist.

(** What the loop derives from one word. *)
Definition derived (word w : string) : Prop :=
  w = lower word \/ w = upper word \/ w = capitalize word \/
  exists i, (i < 10)%nat /\
    (w = String.append word (py_str i) \/
     w = String.append word (String.append (py_str i) (py_str i)) \/
     w = String.append word (py_02d i)).

End Generator.

Lemma add_all_in : forall words wordlist w,
  In w (add_all words wordlist) <-> In w wordlist \/ In w words.
Proof.
  unfold add_all. intros words.
  induction words as [|a words IH]; intros wordlist w; cbn [fold_left].
  - cbn. tauto.
  - rewrite IH, set_add_iff. cbn. intuition (subst; auto).
Qed.

Lemma add_all_nodup : forall words wordlist,
  NoDup wordlist -> NoDup (add_all words wordlist).
Proof.
  unfold add_all. intros words.
  induction words as [|a words IH]; intros wordlist H; cbn [fold_left].
  - exact H.
  - apply IH. now apply set_add_nodup.
Qed.

Lemma set_add_length : forall (a : string) l,
  (List.length (set_add string_dec a l) <= S (List.length l))%nat.
Proof.
  intros a l. induction l as [|b l IH]; cbn; [lia|].
  destruct (string_dec a b); cbn; lia.
Qed.

Lemma add_all_length : forall words wordlist,
  (List.length (add_all words wordlist)
   <= List.length wordlist + List.length words)%nat.
Proof.
  unfold add_all. intros words.
  induction words as [|a words IH]; intros wordlist; cbn [fold_left List.length].
  - lia.
  - pose proof (IH (set_add string_dec a wordlist)).
    pose proof (set_add_length a wordlist). lia.
Qed.

Lemma add_numbered_in : forall word wordlist i w,
  (i < 100)%nat ->
  In w (add_numbered word wordlist i) <->
  In w wordlist \/
  w = String.append word (py_str i) \/
  w = String.append word (String.append (py_str i) (py_str i)) \/
  w = String.append word (py_02d i).
Proof.
  intros word wordlist i w Hi. unfold add_numbered.
  destruct (Nat.ltb_spec i 100); [|lia].
  rewrite !set_add_iff. tauto.
Qed.

Lemma add_numbered_nodup : forall word wordlist i,
  NoDup wordlist -> NoDup (add_numbered word wordlist i).
Proof.
  intros word wordlist i H. unfold add_numbered.
  destruct (i <? 100)%nat; repeat apply set_add_nodup; exact H.
Qed.

Lemma add_numbered_length : forall word wordlist i,
  (List.length (add_numbered word wordlist i) <= 3 + List.length wordlist)%nat.
Proof.
  intros word wordlist i. unfold add_numbered.
  set (l1 := set_add string_dec (String.append word (py_str i)) wordlist).
  set (l2 := set_add string_dec _ l1).
  pose proof (set_add_length (String.append word (py_str i)) wordlist).
  pose proof (set_add_length
                (String.append word (String.append (py_str i) (py_str i))) l1).
  pose proof (set_add_length (String.append word (py_02d i)) l2).
  fold l1 in H. fold l2 in H0.
  destruct (i <? 100)%nat; lia.
Qed.

Lemma numbered_fold : forall word numbers wordlist,
  (forall i, In i numbers -> (i < 100)%nat) ->
  (forall w,
     In w (fold_left (add_numbered word) numbers wordlist) <->
     In w wordlist \/
     exists i, In i numbers /\
       (w = String.append word (py_str i) \/
        w = String.append word (String.append (py_str i) (py_str i)) \/
        w = String.append word (py_02d i))) /\
  (NoDup wordlist -> NoDup (fold_left (add_numbered word) numbers wordlist)) /\
  (List.length (fold_left (add_numbered word) numbers wordlist)
   <= 3 * List.length numbers + List.length wordlist)%nat.
Proof.
  intros word numbers.
  induction numbers as [|i numbers IH]; intros wordlist Hsmall;
    cbn [fold_left List.length].
  - split; [|split; [trivial|lia]].
    intros w. split; [intros H; now left|intros [H|(i & [] & _)]; exact H].
  - destruct (IH (add_numbered word wordlist i)) as (Hin & Hnd & Hlen).
    { intros j Hj. apply Hsmall. now right. }
    split; [|split].
    + intros w. rewrite Hin, add_numbered_in by (apply Hsmall; now left).
      split.
      * intros [[H|H]|(j & Hj & H)]; [now left| |].
        -- right. exists i. split; [now left|exact H].
        -- right. exists j. split; [now right|exact H].
      * intros [H|(j & [<-|Hj] & H)]; [left; now left|left; now right|].
        right. now exists j.
    + intros H. now apply Hnd, add_numbered_nodup.
    + pose proof (add_numbered_length word wordlist i). lia.
Qed.

Section Variants.

Variable lower upper capitalize : string -> string.

Local Abbreviation add_variants := (add_variants lower upper capitalize).
Local Abbreviation derived := (derived lower upper capitalize).

Lemma add_variants_facts : forall wordlist word,
  (forall w, In w (add_variants wordlist word) <->
             In w wordlist \/ derived word w) /\
  (NoDup wordlist -> NoDup (add_variants wordlist word)) /\
  (List.length (add_variants wordlist word) <= 33 + List.length wordlist)%nat.
Proof.
  intros wordlist word. unfold add_variants.
  set (l1 := set_add string_dec (lower word) wordlist).
  set (l2 := set_add string_dec (upper word) l1).
  set (l3 := set_add string_dec (capitalize word) l2).
  destruct (numbered_fold word (seq 0 10) l3) as (Hin & Hnd & Hlen).
  { intros i Hi. apply in_seq in Hi. lia. }
  split; [|split].
  - intros w. rewrite Hin. unfold l3, l2, l1, derived. rewrite !set_add_iff.
    split.
    + intros [[H|[H|[H|H]]]|(i & Hi & H)]; try solve [auto 8].
      right. right. right. right. exists i. apply in_seq in Hi.
      split; [lia|exact H].
    + intros [H|[H|[H|[H|(i & Hi & H)]]]]; try solve [auto 8].
      right. exists i. split; [apply in_seq; lia|exact H].
  - intros H. apply Hnd. unfold l3, l2, l1.
    repeat apply set_add_nodup. exact H.
  - pose proof (set_add_length (lower word) wordlist).
    pose proof (set_add_length (upper word) l1).
    pose proof (set_add_length (capitalize word) l2).
    fold l1 in H. fold l2 in H0. fold l3 in H1.
    rewrite length_seq in Hlen. lia.
Qed.

Lemma variants_fold : forall words wordlist,
  (forall w, In w (fold_left add_variants words wordlist) <->
             In w wordlist \/ exists b, In b words /\ derived b w) /\
  (NoDup wordlist -> NoDup (fold_left add_variants words wordlist)) /\
  (List.length (fold_left add_variants words wordlist)
   <= 33 * List.length words + List.length wordlist)%nat.
Proof.
  intros words.
  induction words as [|b words IH]; intros wordlist;
    cbn [fold_left List.length].
  - split; [|split; [trivial|lia]].
    intros w. split; [intros H; now left|intros [H|(b & [] & _)]; exact H].
  - destruct (IH (add_variants wordlist b)) as (Hin & Hnd & Hlen).
    destruct (add_variants_facts wordlist b) as (Hin1 & Hnd1 & Hlen1).
    split; [|split].
    + intros w. rewrite Hin, Hin1. split.
      * intros [[H|H]|(c & Hc & H)]; [now left| |].
        -- right. exists b. split; [now left|exact H].
        -- right. exists c. split; [now right|exact H].
      * intros [H|(c & [<-|Hc] & H)]; [left; left; exact H|left; right; exact H|].
        right. exists c. split; assumption.
    + intros H. now apply Hnd, Hnd1.
    + lia.
Qed.

End Variants.

(** [str.lower], [str.upper] and [str.capitalize] on ASCII letters, and a
    set that is listed in the order of insertion. *)
Definition ascii_lower (c : ascii) : ascii :=
  let n := nat_of_ascii c in
  if ((65 <=? n) && (n <=? 90))%nat%bool then ascii_of_nat (n + 32) else c.

Definition ascii_upper (c : ascii) : ascii :=
  let n := nat_of_ascii c in
  if ((97 <=? n) && (n <=? 122))%nat%bool then ascii_of_nat (n - 32) else c.

Fixpoint map_string (f : ascii -> ascii) (s : string) : string :=
  match s with
  | EmptyString => EmptyString
  | String c rest => String (f c) (map_string f rest)
  end.

Definition lower_ascii (s : string) : string := map_string ascii_lower s.
Definition upper_ascii (s : string) : string := map_string ascii_upper s.
Definition capitalize_ascii (s : string) : string :=
  match s with
  | EmptyString => EmptyString
  | String c rest => String (ascii_upper c) (map_string ascii_lower rest)
  end.

Definition insertion_order (l : list string) : list string := l.

(** X18.  Whatever order the set is listed in, [generate_simple_wordlist]
    returns a list without repetition, and a word is in it exactly when it
    is a base word, a variation, or derived from a base word: its lower,
    upper or capitalized form, or the word followed by a digit [d], by
    [dd] or by [0d]. *)
Theorem generate_simple_wordlist_members :
  forall lower upper capitalize list_of_set base_words variations,
  (forall l, Permutation (list_of_set l) l) ->
  NoDup (generate_simple_wordlist lower upper capitalize list_of_set
           base_words variations) /\
  forall w,
    In w (generate_simple_wordlist lower upper capitalize list_of_set
            base_words variations) <->
    In w base_words \/ In w variations \/
    exists b, In b base_words /\ derived lower upper capitalize b w.
Proof.
  intros lower upper capitalize list_of_set base variations Hperm.
  unfold generate_simple_wordlist. cbv zeta.
  set (s0 := add_all base (empty_set string)).
  set (s1 := fold_left (add_variants lower upper capitalize) base s0).
  destruct (variants_fold lower upper capitalize base s0) as (Hin & Hnd & _).
  fold s1 in Hin, Hnd.
  split.
  - eapply Permutation_NoDup; [apply Permutation_sym, Hperm|].
    apply add_all_nodup, Hnd, add_all_nodup. constructor.
  - intros w. split.
    + intros H. apply (Permutation_in _ (Hperm _)) in H.
      apply add_all_in in H as [H|H]; [|right; left; exact H].
      apply Hin in H as [H|H]; [|right; right; exact H].
      apply add_all_in in H as [[]|H]. left; exact H.
    + intros H. apply (Permutation_in _ (Permutation_sym (Hperm _))).
      apply add_all_in. destruct H as [H|[H|H]].
      * left. apply Hin. left. apply add_all_in. right; exact H.
      * right; exact H.
      * left. apply Hin. right; exact H.
Qed.

Lemma generate_simple_wordlist_members_witness :
  In "Admin" (generate_simple_wordlist lower_ascii upper_ascii
                capitalize_ascii insertion_order ["admin"] ["sysadmin"]) /\
  In "admin07" (generate_simple_wordlist lower_ascii upper_ascii
                  capitalize_ascii insertion_order ["admin"] ["sysadmin"]).
Proof.
  destruct (generate_simple_wordlist_members lower_ascii upper_ascii
              capitalize_ascii insertion_order ["admin"] ["sysadmin"])
    as [_ Hin].
  - intros l. apply Permutation_refl.
  - split; apply Hin; right; right; exists "admin"; (split; [now left|]).
    + right; right; left. reflexivity.
    + right; right; right. exists 7%nat. split; [lia|].
      right; right. reflexivity.
Defined.

(** X19.  [generate_simple_wordlist] returns at most
    [34 * |base_words| + |variations|] words. *)
Theorem generate_simple_wordlist_size :
  forall lower upper capitalize list_of_set base_words variations,
  (forall l, Permutation (list_of_set l) l) ->
  (List.length (generate_simple_wordlist lower upper capitalize list_of_set
                  base_words variations)
   <= 34 * List.length base_words + List.length variations)%nat.
Proof.
  intros lower upper capitalize list_of_set base variations Hperm.
  unfold generate_simple_wordlist. cbv zeta.
  rewrite (Permutation_length (Hperm _)).
  set (s0 := add_all base (empty_set string)).
  set (s1 := fold_left (add_variants lower upper capitalize) base s0).
  destruct (variants_fold lower upper capitalize base s0) as (_ & _ & Hlen).
  fold s1 in Hlen.
  pose proof (add_all_length variations s1) as H1.
  pose proof (add_all_length base (empty_set string)) as H0.
  fold s0 in H0. cbn [empty_set List.length] in H0. lia.
Qed.

Lemma generate_simple_wordlist_size_witness :
  (List.length (generate_simple_wordlist lower_ascii upper_ascii
                  capitalize_ascii insertion_order ["admin"] ["sysadmin"])
   <= 35)%nat.
Proof.
  apply (generate_simple_wordlist_size lower_ascii upper_ascii
           capitalize_ascii insertion_order ["admin"] ["sysadmin"]).
  intros l. apply Permutation_refl.
Defined.

(** * main *)

(** The [Namespace] that [parser.parse_args()] returns. *)
Inductive search_mode : Type := mode_cpu | mode_hybrid.

Record arguments : Type := mkArguments {
  arg_host : string;
  arg_port : Z;
  arg_users : option string;
  arg_passwords : option string;
  arg_generate : bool;
  arg_threads : Z;
  arg_mode : search_mode
}.

(** [if args.users:] holds for a path that is neither [None] nor empty. *)
Definition given (value : option string) : option string :=
  match value with
  | Some path => if String.eqb path "" then None else Some path
  | None => None
  end.

Definition default_usernames : list string :=
  ["admin"; "root"; "user"; "ftp"; "test"; "guest"; "anonymous"].

Definition default_passwords : list string :=
  ["123456"; "password"; "admin"; "12345678"; "qwerty"; "123456789"].

Section Main.

Variable ftp_login : string -> string -> ftp_reply.
Variable sched : nat -> nat.
Variable GPU_AVAILABLE : bool.
Variable cupy_combinations : list string -> list string -> list cred.
Variable isspace : ascii -> bool.
Variable open_lines : string -> outcome (list string).
Variable lower upper capitalize : string -> string.
Variable list_of_set : list string -> list string.

Definition main_usernames (args : arguments) : list string :=
  match given (arg_users args) with
  | Some path => load_wordlist isspace open_lines path
  | None =>
      if arg_generate args
      then generate_simple_wordlist lower upper capitalize list_of_set
             default_usernames ["administrator"; "sysadmin"]
      else default_usernames
  end.

Definition main_passwords (args : arguments) : list string :=
  match given (arg_passwords args) with
  | Some path => load_wordlist isspace open_lines path
  | None =>
      if arg_generate args
      then generate_simple_wordlist lower upper capitalize list_of_set
             default_passwords
             ["password123"; "admin123"; "root123"; "test123"; "12345";
              "111111"]
      else default_passwords
  end.

(** [main] discards what the search returns; the model hands it back, with
    the object and the ghost state, so that it can be spoken of. *)
Definition main (args : arguments)
    : outcome (option cred) * forcer * ghost :=
  let usernames := main_usernames args in
  let passwords := main_passwords args in
  let brute_forcer := init (arg_host args) (arg_port args) 5 in
  match arg_mode args with
  | mode_cpu =>
      brute_force_cpu ftp_login sched brute_forcer ghost0
        usernames passwords (arg_threads args)
  | mode_hybrid =>
      brute_force_hybrid ftp_login sched GPU_AVAILABLE cupy_combinations
        brute_forcer ghost0 usernames passwords 1000 (arg_threads args)
  end.

End Main.

Lemma product_nil_r : forall us, product us [] = [].
Proof.
  intros us. unfold product. induction us as [|u us IH]; [reflexivity|].
  cbn. exact IH.
Qed.

Lemma load_wordlist_unreadable : forall isspace open_lines filepath e,
  open_lines filepath = Exc e ->
  load_wordlist isspace open_lines filepath = [].
Proof. intros isspace open_lines filepath e H. unfold load_wordlist. now rewrite H. Qed.

Lemma brute_force_cpu_nothing : forall ftp_login sched self g us ps max_workers,
  product us ps = [] ->
  attempted (snd (brute_force_cpu ftp_login sched self g us ps max_workers))
  = attempted g /\
  ((1 <= max_workers)%Z ->
   fst (fst (brute_force_cpu ftp_login sched self g us ps max_workers))
   = Ret None).
Proof.
  intros ftp_login sched self g us ps mw Hempty. unfold brute_force_cpu.
  rewrite Hempty. destruct (ThreadPoolExecutor mw) as [u|e] eqn:Hpool.
  - cbv zeta. rewrite exec_nothing. now split.
  - split; [reflexivity|]. intros Hw.
    rewrite (pool_needs_worker _ Hw) in Hpool. discriminate.
Qed.

Lemma brute_force_hybrid_nothing :
  forall ftp_login sched cupy self g us ps batch_size max_workers,
  product us ps = [] ->
  batch_size <> 0%Z ->
  brute_force_hybrid ftp_login sched false cupy self g us ps
                     batch_size max_workers
  = (Ret None, self, g).
Proof.
  intros ftp_login sched cupy self g us ps bs mw Hempty Hbs.
  unfold brute_force_hybrid. cbv zeta.
  rewrite hybrid_combinations_cpu, Hempty, firstn_nil. cbn [List.length].
  now rewrite py_range_empty_list.
Qed.

(** X20.  A wordlist file that cannot be read gives [main] nothing to try:
    when the file given for the users or for the passwords raises on
    [open] or on a read, no attempt is made in either mode; without the GPU
    path the hybrid search returns [None] without building an executor,
    and the CPU search returns [None] when [threads >= 1]. *)
Theorem main_unreadable_wordlist :
  forall ftp_login sched cupy isspace open_lines lower upper capitalize
         list_of_set args,
  (exists path e,
     (given (arg_users args) = Some path \/
      given (arg_passwords args) = Some path) /\
     open_lines path = Exc e) ->
  let R := main ftp_login sched false cupy isspace open_lines
             lower upper capitalize list_of_set args in
  attempted (snd R) = [] /\
  (arg_mode args = mode_hybrid ->
   R = (Ret None, init (arg_host args) (arg_port args) 5, ghost0)) /\
  (arg_mode args = mode_cpu -> (1 <= arg_threads args)%Z ->
   fst (fst R) = Ret None).
Proof.
  intros ftp_login sched cupy isspace open_lines lower upper capitalize
         list_of_set args (path & e & Hpath & Hopen) R.
  assert (Hempty : product
            (main_usernames isspace open_lines lower upper capitalize
               list_of_set args)
            (main_passwords isspace open_lines lower upper capitalize
               list_of_set args) = []).
  { destruct Hpath as [Hu|Hp].
    - unfold main_usernames. rewrite Hu.
      now rewrite (load_wordlist_unreadable _ _ _ _ Hopen).
    - unfold main_passwords at 1. rewrite Hp.
      rewrite (load_wordlist_unreadable _ _ _ _ Hopen).
      apply product_nil_r. }
  subst R. unfold main. cbv zeta.
  destruct (arg_mode args).
  - destruct (brute_force_cpu_nothing ftp_login sched
                (init (arg_host args) (arg_port args) 5) ghost0 _ _
                (arg_threads args) Hempty) as [Hlog Hret].
    split; [exact Hlog|]. split; [discriminate|]. intros _. exact Hret.
  - rewrite brute_force_hybrid_nothing by (trivial; discriminate).
    split; [reflexivity|]. split; [reflexivity|discriminate].
Qed.

Lemma main_unreadable_wordlist_witness :
  main always_accepts round_robin false no_cupy ascii_isspace one_file
    lower_ascii upper_ascii capitalize_ascii insertion_order
    (mkArguments "target" 21 (Some "missing.txt") None false 10 mode_hybrid)
  = (Ret None, init "target" 21 5, ghost0).
Proof.
  apply (main_unreadable_wordlist always_accepts round_robin no_cupy
           ascii_isspace one_file lower_ascii upper_ascii capitalize_ascii
           insertion_order
           (mkArguments "target" 21 (Some "missing.txt") None false 10
              mode_hybrid)).
  - exists "missing.txt", (other_fault "FileNotFoundError").
    split; [left|]; reflexivity.
  - reflexivity.
Defined.

(** X21.  [main] finds a valid account whenever its wordlists hold one: with
    [threads >= 1], if the target accepts some pair of the cross product of
    the wordlists [main] loads, generates or defaults to, the search that
    [main] runs returns an accepted pair of that cross product, under every
    schedule; in hybrid mode without the GPU path this holds for up to
    1,000,000 pairs. *)
Theorem main_finds_accepted_pair :
  forall ftp_login sched cupy isspace open_lines lower upper capitalize
         list_of_set args x,
  let us := main_usernames isspace open_lines lower upper capitalize
              list_of_set args in
  let ps := main_passwords isspace open_lines lower upper capitalize
              list_of_set args in
  (1 <= arg_threads args)%Z ->
  In x (product us ps) ->
  ftp_login (fst x) (snd x) = LoginOk ->
  (arg_mode args = mode_hybrid ->
   (Z.of_nat (List.length us) * Z.of_nat (List.length ps) <= 1000000)%Z) ->
  exists r,
    fst (fst (main ftp_login sched false cupy isspace open_lines
                lower upper capitalize list_of_set args))
    = Ret (Some r) /\
    In r (product us ps) /\ ftp_login (fst r) (snd r) = LoginOk.
Proof.
  intros ftp_login sched cupy isspace open_lines lower upper capitalize
         list_of_set args x us ps Hw Hin Hx Hsmall.
  unfold main. cbv zeta. fold us. fold ps.
  set (self := init (arg_host args) (arg_port args) 5).
  destruct (arg_mode args).
  - unfold brute_force_cpu. rewrite (pool_needs_worker _ Hw). cbv zeta.
    destruct (exec_some_valid ftp_login sched true (arg_threads args) self
                (pool_created ghost0) (product us ps) x Hw Hin Hx eq_refl)
      as (r & S1 & _ & _ & Hr & Hok).
    exists r. cbn [fst]. unfold after_loop. rewrite S1. now repeat split.
  - specialize (Hsmall eq_refl).
    pose proof (hybrid_combinations_small cupy self us ps Hsmall) as Hall.
    destruct (brute_force_hybrid_batches ftp_login sched false cupy self
                ghost0 us ps 1000 (arg_threads args)) as (indices & Hcover & ->);
      [lia|].
    rewrite Hall in *.
    destruct (hybrid_batches_some_valid ftp_login sched (product us ps) 1000
                (arg_threads args) Hw indices self ghost0 x eq_refl)
      as (r & Hr); trivial.
    { now rewrite Hcover. }
    exists r. split; [exact Hr|].
    apply hybrid_batches_sound in Hr as (Hrin & Hok & _).
    rewrite Hcover in Hrin. now split.
Qed.

Lemma main_finds_accepted_pair_witness :
  exists r,
    fst (fst (main only_root_admin round_robin false no_cupy ascii_isspace
                one_file lower_ascii upper_ascii capitalize_ascii
                insertion_order
                (mkArguments "target" 21 None None false 10 mode_hybrid)))
    = Ret (Some r) /\
    only_root_admin (fst r) (snd r) = LoginOk.
Proof.
  destruct (main_finds_accepted_pair only_root_admin round_robin no_cupy
              ascii_isspace one_file lower_ascii upper_ascii capitalize_ascii
              insertion_order
              (mkArguments "target" 21 None None false 10 mode_hybrid)
              ("root", "admin")) as (r & Hr & _ & Hok).
  - cbn. lia.
  - vm_compute. tauto.
  - reflexivity.
  - intros _. cbn. lia.
  - exists r. now split.
Defined.

(** X22.  [main] does not check [--threads]: with [threads <= 0] and
    wordlists whose cross product is not empty, the search raises the
    [ValueError] of the executor's constructor, in CPU mode and (without
    the GPU path) in hybrid mode, before any attempt; [main] does not
    catch it. *)
Theorem main_no_worker :
  forall ftp_login sched cupy isspace open_lines lower upper capitalize
         list_of_set args,
  (arg_threads args <= 0)%Z ->
  product
    (main_usernames isspace open_lines lower upper capitalize list_of_set args)
    (main_passwords isspace open_lines lower upper capitalize list_of_set args)
  <> [] ->
  main ftp_login sched false cupy isspace open_lines
    lower upper capitalize list_of_set args
  = (Exc (ValueError "max_workers must be greater than 0"),
     init (arg_host args) (arg_port args) 5, ghost0).
Proof.
  intros ftp_login sched cupy isspace open_lines lower upper capitalize
         list_of_set args Hw Hne.
  unfold main. cbv zeta.
  set (us := main_usernames _ _ _ _ _ _ args) in *.
  set (ps := main_passwords _ _ _ _ _ _ args) in *.
  set (self := init (arg_host args) (arg_port args) 5).
  destruct (arg_mode args).
  - unfold brute_force_cpu. now rewrite (pool_refuses _ Hw).
  - unfold brute_force_hybrid. cbv zeta.
    destruct (py_range_first
                (Z.of_nat (List.length (hybrid_combinations false cupy self us ps)))
                1000) as (i & later & ->); [|lia|].
    { rewrite hybrid_combinations_cpu, length_firstn.
      destruct (product us ps); [contradiction|]. cbn [List.length]. lia. }
    now rewrite hybrid_batches_no_worker.
Qed.

Lemma main_no_worker_witness :
  main only_root_admin round_robin false no_cupy ascii_isspace one_file
    lower_ascii upper_ascii capitalize_ascii insertion_order
    (mkArguments "target" 21 None None false 0 mode_cpu)
  = (Exc (ValueError "max_workers must be greater than 0"),
     init "target" 21 5, ghost0).
Proof.
  apply (main_no_worker only_root_admin round_robin no_cupy ascii_isspace
           one_file lower_ascii upper_ascii capitalize_ascii insertion_order
           (mkArguments "target" 21 None None false 0 mode_cpu)).
  - cbn. lia.
  - discriminate.
Defined.

(** * The executor at the grain of single statements *)

(** The searches above take two pairs of steps as one: a worker's test of
    [self.found] with the opening of its FTP exchange, and the main
    thread's [self.found = True] with its [self.result = result].  What
    happens between the steps of each pair is told here: a task that has
    passed the test of [try_credentials] waits in [w_tested] until it
    connects, and the main thread stands at a line of its loop. *)

(** [self.found = True] *)
Definition set_found (self : forcer) : forcer :=
  mkForcer (host self) (port self) (timeout self) true (result self).

(** [self.result = result] *)
Definition set_result (self : forcer) (r : cred) : forcer :=
  mkForcer (host self) (port self) (timeout self) (found self) (Some r).

(** Where the main thread stands. *)
Inductive line : Type :=
| AtLoop                  (* [for future in as_completed(...)]: next future *)
| AtSetFound (r : cred)   (* [if result:] held; before [self.found = True] *)
| AtSetResult (r : cred)  (* before [self.result = result] *)
| AtReturn (r : cred)     (* both written: print and [return result] *)
| AtRaise (e : exn)       (* [future.result()] raised *)
| AtBreak                 (* left by [break] *)
| AtEnd.                  (* every future was yielded *)

Record workers : Type := mkWorkers {
  w_shared : forcer;                          (* the object, [self] *)
  w_queue : list cred;                        (* the work queue, oldest first *)
  w_tested : list cred;                       (* past [if self.found:], not connected *)
  w_connected : list cred;                    (* inside the FTP exchange *)
  w_futures : list (outcome (option cred));   (* done futures not yet yielded *)
  w_line : line;
  w_trace : ghost
}.

Inductive action : Type :=
| Test                 (* a free worker takes a task and tests [self.found] *)
| Connect (k : nat)    (* the k-th tested task opens its FTP exchange *)
| Reply (k : nat)      (* the k-th exchange ends; the task returns *)
| Next (k : nat)       (* as_completed yields the k-th finished future *)
| SetFound             (* [self.found = True] *)
| SetResult            (* [self.result = result] *)
| Done.                (* as_completed has nothing left to yield *)

Definition submitted (self : forcer) (g : ghost) (batch : list cred)
    : workers :=
  mkWorkers self batch [] [] [] AtLoop g.

Definition busy (s : workers) : nat :=
  (List.length (w_tested s) + List.length (w_connected s))%nat.

Definition possible (max_workers : Z) (s : workers) : list action :=
  (match w_queue s with
   | [] => []
   | _ :: _ => if (Z.of_nat (busy s) <? max_workers)%Z then [Test] else []
   end)
  ++ map Connect (seq 0 (List.length (w_tested s)))
  ++ map Reply (seq 0 (List.length (w_connected s)))
  ++ (match w_line s with
      | AtLoop =>
          match w_futures s with
          | [] => match w_queue s, w_tested s, w_connected s with
                  | [], [], [] => [Done]
                  | _, _, _ => []
                  end
          | _ :: _ => map Next (seq 0 (List.length (w_futures s)))
          end
      | AtSetFound _ => [SetFound]
      | AtSetResult _ => [SetResult]
      | _ => []
      end).

Section Statements.

Variable ftp_login : string -> string -> ftp_reply.
Variable sched : nat -> nat.
Variable cancel_futures : bool.
Variable max_workers : Z.

(** The main thread alone writes the object, so what it reads between two
    of its own writes is one and the same object: [Next] takes its test of
    [self.found], [future.result()] and [if result:] in one step. *)
Definition perform (a : action) (s : workers) : workers :=
  match a with
  | Test =>
      match w_queue s with
      | [] => s
      | (username, password) :: queue =>
          if found (w_shared s)
          then mkWorkers (w_shared s) queue (w_tested s) (w_connected s)
                 (w_futures s
                  ++ [try_credentials ftp_login (w_shared s) username password])
                 (w_line s) (w_trace s)
          else mkWorkers (w_shared s) queue
                 (w_tested s ++ [(username, password)]) (w_connected s)
                 (w_futures s) (w_line s) (w_trace s)
      end
  | Connect k =>
      match nth_error (w_tested s) k with
      | None => s
      | Some c =>
          mkWorkers (w_shared s) (w_queue s) (remove_nth k (w_tested s))
            (w_connected s ++ [c]) (w_futures s) (w_line s)
            (log_attempt (w_trace s) c)
      end
  | Reply k =>
      match nth_error (w_connected s) k with
      | None => s
      | Some (username, password) =>
          mkWorkers (w_shared s) (w_queue s) (w_tested s)
            (remove_nth k (w_connected s))
            (w_futures s ++ [attempt ftp_login username password])
            (w_line s) (w_trace s)
      end
  | Next k =>
      match w_line s, nth_error (w_futures s) k with
      | AtLoop, Some future =>
          let rest := remove_nth k (w_futures s) in
          if found (w_shared s)
          then mkWorkers (w_shared s)
                 (if cancel_futures then [] else w_queue s)
                 (w_tested s) (w_connected s) rest AtBreak (w_trace s)
          else
            mkWorkers (w_shared s) (w_queue s) (w_tested s) (w_connected s)
              rest
              (match future with
               | Exc e => AtRaise e
               | Ret (Some r) => AtSetFound r
               | Ret None => AtLoop
               end)
              (w_trace s)
      | _, _ => s
      end
  | SetFound =>
      match w_line s with
      | AtSetFound r =>
          mkWorkers (set_found (w_shared s)) (w_queue s) (w_tested s)
            (w_connected s) (w_futures s) (AtSetResult r) (w_trace s)
      | _ => s
      end
  | SetResult =>
      match w_line s with
      | AtSetResult r =>
          mkWorkers (set_result (w_shared s) r) (w_queue s) (w_tested s)
            (w_connected s) (w_futures s) (AtReturn r) (w_trace s)
      | _ => s
      end
  | Done =>
      match w_line s with
      | AtLoop =>
          mkWorkers (w_shared s) (w_queue s) (w_tested s) (w_connected s)
            (w_futures s) AtEnd (w_trace s)
      | _ => s
      end
  end.

Definition clocked (s : workers) : workers :=
  mkWorkers (w_shared s) (w_queue s) (w_tested s) (w_connected s)
    (w_futures s) (w_line s) (tock (w_trace s)).

Definition chosen (s : workers) : option action :=
  match possible max_workers s with
  | [] => None
  | a :: others =>
      Some (nth (sched (clock (w_trace s)) mod List.length (a :: others))
                (a :: others) a)
  end.

(** The state after [fuel] events, or fewer if none is possible. *)
Fixpoint proceed (fuel : nat) (s : workers) : workers :=
  match fuel with
  | O => s
  | S fuel' =>
      match chosen s with
      | None => s
      | Some a => proceed fuel' (clocked (perform a s))
      end
  end.

(** One event, case by case. *)
Inductive moves : workers -> workers -> Prop :=
| moves_skip : forall self u p q t c d l g,
    found self = true ->
    (Z.of_nat (List.length t + List.length c) < max_workers)%Z ->
    moves (mkWorkers self ((u, p) :: q) t c d l g)
          (mkWorkers self q t c (d ++ [Ret None]) l (tock g))
| moves_pass : forall self u p q t c d l g,
    found self = false ->
    (Z.of_nat (List.length t + List.length c) < max_workers)%Z ->
    moves (mkWorkers self ((u, p) :: q) t c d l g)
          (mkWorkers self q (t ++ [(u, p)]) c d l (tock g))
| moves_connect : forall self q t c d l g k x,
    nth_error t k = Some x ->
    moves (mkWorkers self q t c d l g)
          (mkWorkers self q (remove_nth k t) (c ++ [x]) d l
                     (tock (log_attempt g x)))
| moves_reply : forall self q t c d l g k u p,
    nth_error c k = Some (u, p) ->
    moves (mkWorkers self q t c d l g)
          (mkWorkers self q t (remove_nth k c)
                     (d ++ [attempt ftp_login u p]) l (tock g))
| moves_break : forall self q t c d g k f,
    nth_error d k = Some f ->
    found self = true ->
    moves (mkWorkers self q t c d AtLoop g)
          (mkWorkers self (if cancel_futures then [] else q) t c
                     (remove_nth k d) AtBreak (tock g))
| moves_raise : forall self q t c d g k e,
    nth_error d k = Some (Exc e) ->
    found self = false ->
    moves (mkWorkers self q t c d AtLoop g)
          (mkWorkers self q t c (remove_nth k d) (AtRaise e) (tock g))
| moves_hit : forall self q t c d g k r,
    nth_error d k = Some (Ret (Some r)) ->
    found self = false ->
    moves (mkWorkers self q t c d AtLoop g)
          (mkWorkers self q t c (remove_nth k d) (AtSetFound r) (tock g))
| moves_miss : forall self q t c d g k,
    nth_error d k = Some (Ret None) ->
    found self = false ->
    moves (mkWorkers self q t c d AtLoop g)
          (mkWorkers self q t c (remove_nth k d) AtLoop (tock g))
| moves_set_found : forall self q t c d g r,
    moves (mkWorkers self q t c d (AtSetFound r) g)
          (mkWorkers (set_found self) q t c d (AtSetResult r) (tock g))
| moves_set_result : forall self q t c d g r,
    moves (mkWorkers self q t c d (AtSetResult r) g)
          (mkWorkers (set_result self r) q t c d (AtReturn r) (tock g))
| moves_done : forall self g,
    moves (mkWorkers self [] [] [] [] AtLoop g)
          (mkWorkers self [] [] [] [] AtEnd (tock g)).

Lemma possible_moves : forall s a,
  In a (possible max_workers s) -> moves s (clocked (perform a s)).
Proof.
  intros [self q t c d l g] a H. unfold possible, busy in H.
  cbn [w_queue w_tested w_connected w_futures w_line] in H.
  apply in_app_or in H as [H|H];
    [|apply in_app_or in H as [H|H]; [|apply in_app_or in H as [H|H]]].
  - destruct q as [|[u p] q]; [contradiction|].
    destruct (Z.ltb_spec (Z.of_nat (List.length t + List.length c)) max_workers)
      as [Hfree|]; [|contradiction].
    destruct H as [<-|[]]. unfold clocked, perform, try_credentials. cbn.
    destruct (found self) eqn:F; cbn; now constructor.
  - apply in_map_iff in H as (k & <- & Hk). apply in_seq in Hk.
    destruct (nth_error t k) as [x|] eqn:Ht.
    2: { apply nth_error_None in Ht. lia. }
    unfold clocked, perform. cbn. rewrite Ht. cbn. now constructor.
  - apply in_map_iff in H as (k & <- & Hk). apply in_seq in Hk.
    destruct (nth_error c k) as [[u p]|] eqn:Hc.
    2: { apply nth_error_None in Hc. lia. }
    unfold clocked, perform. cbn. rewrite Hc. cbn. now constructor.
  - destruct l; try contradiction.
    + destruct d as [|f d].
      * destruct q; [|contradiction]. destruct t; [|contradiction].
        destruct c; [|contradiction].
        destruct H as [<-|[]]. cbn. constructor.
      * apply in_map_iff in H as (k & <- & Hk). apply in_seq in Hk.
        destruct (nth_error (f :: d) k) as [f'|] eqn:Hd.
        2: { apply nth_error_None in Hd. lia. }
        unfold clocked, perform.
        cbn [w_line w_futures w_shared w_queue w_tested w_connected w_trace].
        rewrite Hd. destruct (found self) eqn:F.
        -- cbn. econstructor; eassumption.
        -- destruct f' as [[x|]|e]; cbn; now constructor.
    + destruct H as [<-|[]]. cbn. constructor.
    + destruct H as [<-|[]]. cbn. constructor.
Qed.

Lemma chosen_possible : forall s a,
  chosen s = Some a -> In a (possible max_workers s).
Proof.
  intros s a H. unfold chosen in H.
  destruct (possible max_workers s) as [|a0 others] eqn:E; [discriminate|].
  assert (Hlt : (sched (clock (w_trace s)) mod List.length (a0 :: others)
                 < List.length (a0 :: others))%nat)
    by (apply Nat.mod_upper_bound; discriminate).
  injection H as <-. exact (nth_In _ _ Hlt).
Qed.

(** An invariant of the events holds in every state that is reached. *)
Lemma proceed_invariant : forall (P : workers -> Prop),
  (forall s s', P s -> moves s s' -> P s') ->
  forall fuel s, P s -> P (proceed fuel s).
Proof.
  intros P HP fuel. induction fuel as [|fuel IH]; intros s Hs; cbn [proceed].
  - assumption.
  - destruct (chosen s) as [a|] eqn:E; [|assumption].
    apply IH. eapply HP; [eassumption|].
    apply possible_moves. now apply chosen_possible.
Qed.

End Statements.

Section StatementInvariants.

Variable ftp_login : string -> string -> ftp_reply.
Variable sched : nat -> nat.
Variable cancel_futures : bool.
Variable max_workers : Z.

Local Abbreviation movesI := (moves ftp_login cancel_futures max_workers).
Local Abbreviation proceedI :=
  (proceed ftp_login sched cancel_futures max_workers).

(** *** The two writes *)

(** What has been written to the object [self0] the loop started with:
    nothing yet, the flag, or the flag and then the result. *)
Definition writes_so_far (self0 : forcer) (s : workers) : Prop :=
  (w_shared s = self0 /\
   (forall r, w_line s <> AtSetResult r /\ w_line s <> AtReturn r) /\
   (forall r, w_line s = AtSetFound r -> found self0 = false))
  \/
  (exists r, found self0 = false /\ w_shared s = set_found self0 /\
             w_line s = AtSetResult r)
  \/
  (exists r, found self0 = false /\
             w_shared s = set_result (set_found self0) r /\
             w_line s = AtReturn r).

Lemma writes_so_far_moves : forall self0 s s',
  writes_so_far self0 s -> movesI s s' -> writes_so_far self0 s'.
Proof.
  intros self0 s s' H Hmove. unfold writes_so_far in *.
  destruct Hmove; cbn [w_shared w_line] in *.
  1-4: exact H.
  - (* break *)
    destruct H as [(E & _ & _)|[(r & _ & _ & L)|(r & _ & _ & L)]];
      try discriminate.
    left. repeat split; trivial; discriminate.
  - (* raise *)
    destruct H as [(E & _ & _)|[(r & _ & _ & L)|(r & _ & _ & L)]];
      try discriminate.
    left. repeat split; trivial; discriminate.
  - (* hit *)
    destruct H as [(E & _ & _)|[(r0 & _ & _ & L)|(r0 & _ & _ & L)]];
      try discriminate.
    left. repeat split; trivial; try discriminate. intros _ _. congruence.
  - (* miss *)
    destruct H as [(E & _ & _)|[(r & _ & _ & L)|(r & _ & _ & L)]];
      try discriminate.
    left. repeat split; trivial; discriminate.
  - (* self.found = True *)
    destruct H as [(E & _ & F)|[(r0 & _ & _ & L)|(r0 & _ & _ & L)]];
      try discriminate.
    right. left. exists r. repeat split; [now apply (F r)|now rewrite E].
  - (* self.result = result *)
    destruct H as [(_ & N & _)|[(r0 & F & E & L)|(r0 & _ & _ & L)]];
      try discriminate.
    + now destruct (N r).
    + right. right. exists r. repeat split; trivial. now rewrite E.
  - (* done *)
    destruct H as [(E & _ & _)|[(r & _ & _ & L)|(r & _ & _ & L)]];
      try discriminate.
    left. repeat split; trivial; discriminate.
Qed.

(** *** After the loop is left *)

Definition loop_left (l : line) : Prop :=
  match l with
  | AtReturn _ | AtRaise _ | AtBreak | AtEnd => True
  | _ => False
  end.

Definition as_left (s0 s : workers) : Prop :=
  w_shared s = w_shared s0 /\ w_line s = w_line s0.

Lemma as_left_moves : forall s0 s s',
  loop_left (w_line s0) ->
  as_left s0 s -> movesI s s' -> as_left s0 s'.
Proof.
  intros s0 s s' Hleft (E & L) Hmove. unfold as_left.
  destruct Hmove; cbn [w_shared w_line] in *;
    try (split; assumption);
    rewrite <- L in Hleft; destruct Hleft.
Qed.

(** *** Exchanges opened after the flag is set *)

Definition late_exchanges (s0 s : workers) : Prop :=
  found (w_shared s) = true /\
  exists new,
    attempted (w_trace s) = attempted (w_trace s0) ++ new /\
    Permutation (w_tested s0) (new ++ w_tested s).

Lemma remove_nth_perm : forall (A : Type) (k : nat) (l : list A) (x : A),
  nth_error l k = Some x -> Permutation l (x :: remove_nth k l).
Proof.
  intros A k l x H. apply nth_error_split in H as (l1 & l2 & -> & <-).
  rewrite remove_nth_split. apply Permutation_sym, Permutation_middle.
Qed.

Lemma late_exchanges_moves : forall s0 s s',
  late_exchanges s0 s -> movesI s s' -> late_exchanges s0 s'.
Proof.
  intros s0 s s' (F & new & Hlog & Hperm) Hmove. unfold late_exchanges.
  destruct Hmove; cbn [w_shared w_trace w_tested attempted tock log_attempt found set_found set_result] in *;
    try congruence;
    try (split; [assumption|]; exists new; split; assumption).
  - (* connect *)
    split; [assumption|]. exists (new ++ [x]). split.
    + rewrite Hlog. now rewrite app_assoc.
    + etransitivity; [exact Hperm|]. rewrite <- app_assoc.
      apply Permutation_app_head. cbn. now apply remove_nth_perm.
  - (* self.found = True *)
    split; [reflexivity|]. exists new. split; assumption.
Qed.

(** *** One worker *)



End StatementInvariants.

Section TakenInvariant.

Variable ftp_login : string -> string -> ftp_reply.
Variable cancel_futures : bool.
Variable max_workers : Z.



End TakenInvariant.

(** * The flag and the result, statement by statement *)

(** C5, as stated, fails.  Between [self.found = True] and
    [self.result = result] the flag is set while the result is still
    [None]: one accepted pair, tested, tried, answered and yielded, and the
    main thread has run the first of its two assignments. *)
Lemma flag_set_before_result :
  let s := proceed always_accepts first_enabled true 2 5
             (submitted (init "target" 21 5) ghost0 [("admin", "admin")]) in
  found (w_shared s) = true /\
  result (w_shared s) = None /\
  w_line s = AtSetResult ("admin", "admin").
Proof.
  vm_compute. repeat split.
Qed.

(** C5, amended.  From the head of the loop over the finished futures and
    whatever events follow (worker and main thread interleaved in any way),
    the object is in one of three conditions: unchanged; or its flag, unset
    before, has been set by [self.found = True] and the main thread stands
    before [self.result = result]; or both assignments have run, in this
    order and once each, the result is the pair [r] the main thread is
    about to return.  So a set flag comes with a non-empty result except
    between the two assignments; once the loop is left (by [return],
    [break], an exception or exhaustion) neither the object nor the pair
    returned changes again, whatever the workers still do, a second
    success staying unread; and an object whose flag was set beforehand is
    never written.  At the return of either search, a set flag comes with a
    non-empty result, equal to the pair returned. *)
Theorem found_then_result_once :
  forall ftp_login sched cancel_futures max_workers fuel s,
  w_line s = AtLoop ->
  (found (w_shared s) = true -> result (w_shared s) <> None) ->
  let s' := proceed ftp_login sched cancel_futures max_workers fuel s in
  ((w_shared s' = w_shared s /\
    forall r, w_line s' <> AtSetResult r /\ w_line s' <> AtReturn r)
   \/
   (exists r, found (w_shared s) = false /\
              w_shared s' = set_found (w_shared s) /\
              w_line s' = AtSetResult r)
   \/
   (exists r, found (w_shared s) = false /\
              w_shared s' = set_result (set_found (w_shared s)) r /\
              w_line s' = AtReturn r)) /\
  (found (w_shared s') = true ->
   result (w_shared s') <> None \/ exists r, w_line s' = AtSetResult r) /\
  (loop_left (w_line s') ->
   (found (w_shared s') = true -> result (w_shared s') <> None) /\
   forall more,
     let s'' := proceed ftp_login sched cancel_futures max_workers more s' in
     w_shared s'' = w_shared s' /\ w_line s'' = w_line s') /\
  (found (w_shared s) = true -> w_shared s' = w_shared s) /\
  (forall g us ps,
     keeps_first_result (w_shared s)
       (brute_force_cpu ftp_login sched (w_shared s) g us ps max_workers)) /\
  (forall gpu cupy g us ps batch_size,
     keeps_first_result (w_shared s)
       (brute_force_hybrid ftp_login sched gpu cupy (w_shared s) g us ps
                           batch_size max_workers)).
Proof.
  intros ftp_login sched cancel_futures max_workers fuel s L Hres s'.
  assert (W : writes_so_far (w_shared s) s').
  { apply (proceed_invariant ftp_login sched cancel_futures max_workers
             (writes_so_far (w_shared s))).
    - intros a b. apply writes_so_far_moves.
    - left. rewrite L. repeat split; discriminate. }
  assert (T : (w_shared s' = w_shared s /\
               forall r, w_line s' <> AtSetResult r /\ w_line s' <> AtReturn r)
              \/
              (exists r, found (w_shared s) = false /\
                         w_shared s' = set_found (w_shared s) /\
                         w_line s' = AtSetResult r)
              \/
              (exists r, found (w_shared s) = false /\
                         w_shared s' = set_result (set_found (w_shared s)) r /\
                         w_line s' = AtReturn r)).
  { destruct W as [(E & N & _)|[W|W]].
    - left. split; assumption.
    - right. left. exact W.
    - right. right. exact W. }
  split; [exact T|]. split; [|split; [|split; [|split]]].
  - intros F. destruct T as [(E & _)|[(r & _ & _ & Lr)|(r & _ & E & _)]].
    + left. rewrite E in *. now apply Hres.
    + right. now exists r.
    + left. rewrite E. discriminate.
  - intros Hleft. split.
    + intros F. destruct T as [(E & _)|[(r & _ & _ & Lr)|(r & _ & E & _)]].
      * rewrite E in *. now apply Hres.
      * rewrite Lr in Hleft. destruct Hleft.
      * rewrite E. discriminate.
    + intros more s''.
      apply (proceed_invariant ftp_login sched cancel_futures max_workers
               (as_left s')).
      * intros a b. now apply as_left_moves.
      * split; reflexivity.
  - intros F. destruct T as [(E & _)|[(r & F' & _)|(r & F' & _)]];
      [exact E|congruence|congruence].
  - intros g us ps. now apply brute_force_cpu_write_once.
  - intros gpu cupy g us ps bs. now apply brute_force_hybrid_write_once.
Qed.

(** Two accepted pairs race on two workers: both answers are in when the
    main thread reads the first; it writes the flag, then the result, and
    returns ("admin", "admin"), and the second success is never read. *)
Lemma found_then_result_once_witness :
  let s := submitted (init "target" 21 5) ghost0
             [("admin", "admin"); ("root", "root")] in
  let s' := proceed always_accepts first_enabled true 2 9 s in
  w_line s = AtLoop /\
  w_shared s' = set_result (set_found (w_shared s)) ("admin", "admin") /\
  w_line s' = AtReturn ("admin", "admin") /\
  w_futures s' = [Ret (Some ("root", "root"))] /\
  forall more,
    w_shared (proceed always_accepts first_enabled true 2 more s')
    = w_shared s'.
Proof.
  intros s s'.
  destruct (found_then_result_once always_accepts first_enabled true 2 9 s)
    as (_ & _ & Hleft & _).
  - reflexivity.
  - discriminate.
  - split; [reflexivity|]. split; [reflexivity|]. split; [reflexivity|].
    split; [reflexivity|].
    intros more. apply Hleft. exact I.
Defined.

(** * Exchanges and the flag, statement by statement *)

(** X8.  Once the flag is set, the only exchanges still opened are those
    of tasks that had passed the test of [try_credentials] before: whatever
    events follow, the flag stays set, and the pairs tried since are among
    the tasks that stood between the test and [connect], each counted
    once; a task taken from the queue afterwards returns [None] without an
    exchange. *)
Theorem late_exchanges_were_tested :
  forall ftp_login sched cancel_futures max_workers fuel s,
  found (w_shared s) = true ->
  let s' := proceed ftp_login sched cancel_futures max_workers fuel s in
  found (w_shared s') = true /\
  exists new,
    attempted (w_trace s') = attempted (w_trace s) ++ new /\
    Permutation (w_tested s) (new ++ w_tested s').
Proof.
  intros ftp_login sched cancel_futures max_workers fuel s F s'.
  apply (proceed_invariant ftp_login sched cancel_futures max_workers
           (late_exchanges s)).
  - intros a b. apply late_exchanges_moves.
  - split; [exact F|]. exists []. split.
    + now rewrite app_nil_r.
    + reflexivity.
Qed.

(** One worker, two accepted pairs: ("root", "root") passes the test
    while the main thread stands before [self.found = True], and opens its
    exchange after the flag is set. *)
Lemma late_exchanges_were_tested_witness :
  let s := proceed always_accepts round_robin true 1 6
             (submitted (init "target" 21 5) ghost0
                [("admin", "admin"); ("root", "root")]) in
  let s' := proceed always_accepts round_robin true 1 1 s in
  found (w_shared s) = true /\
  w_tested s = [("root", "root")] /\
  attempted (w_trace s') = attempted (w_trace s) ++ [("root", "root")] /\
  exists new,
    attempted (w_trace s') = attempted (w_trace s) ++ new /\
    Permutation (w_tested s) (new ++ w_tested s').
Proof.
  intros s s'.
  destruct (late_exchanges_were_tested always_accepts round_robin true 1 1 s)
    as (_ & H).
  - reflexivity.
  - split; [reflexivity|]. split; [reflexivity|]. split; [reflexivity|].
    exact H.
Defined.


